(** * kvmd user GPIO driver for CyberPower PDUs (plugins/ugpio/cyberpower.py)

    A shallow embedding of the [Plugin] class: the state table
    [self.__state], the polling loop [run], the accessors [read] and
    [write], and the two SNMP helpers [__update_power] and [__set_power].

    Python objects are modelled with an explicit store: [self.__state] is a
    reference to a dict object, [dict.fromkeys] allocates a fresh object,
    item assignment mutates the object in place, and the local variable
    [prev_state] of [run] holds a reference (or [None]).  Everything the
    plugin does to the outside world (process invocations, log records,
    notifier calls, sleeps) is appended to a trace. *)

From Stdlib Require Import List String Ascii ZArith QArith Lia Bool Arith.
From Stdlib Require Import DecimalString.
Import ListNotations.

Local Open Scope string_scope.
Local Open Scope list_scope.
Local Open Scope nat_scope.

(** ** Strings

    A [str] is a [string] whose characters are code points below 256. *)

Module Str.

(** [str.isspace] on a single character (code points below 256). *)
Definition isspace (c : ascii) : bool :=
  let n := nat_of_ascii c in
  ((9 <=? n) && (n <=? 13)) || ((28 <=? n) && (n <=? 32))
  || (n =? 133) || (n =? 160).

Fixpoint lstrip (s : string) : string :=
  match s with
  | EmptyString => EmptyString
  | String c s' => if isspace c then lstrip s' else s
  end.

Fixpoint rstrip (s : string) : string :=
  match s with
  | EmptyString => EmptyString
  | String c s' =>
      match rstrip s' with
      | EmptyString => if isspace c then EmptyString else String c EmptyString
      | r => String c r
      end
  end.

(** [s.strip()] *)
Definition strip (s : string) : string := rstrip (lstrip s).

(** [s.startswith(p)] *)
Definition startswith (s p : string) : bool := String.prefix p s.

(** The last character of [s], if any. *)
Fixpoint last (s : string) : option ascii :=
  match s with
  | EmptyString => None
  | String c EmptyString => Some c
  | String _ s' => last s'
  end.

(** [str(n)] for an [int]. *)
Definition of_Z (n : Z) : string := NilZero.string_of_int (Z.to_int n).

End Str.

(** ** Exceptions, dict objects and the store *)

Inductive exn : Type :=
| RuntimeError (msg : string)
| KeyError (key : string)
| IndexError (msg : string)
| ValueError (msg : string)
| OSError (msg : string)
| GpioDriverOfflineError.

(** The value type of the state table: [bool | None]. *)
Definition reading : Type := option bool.

(** A dict object [dict[str, bool | None]]: its items in insertion order,
    with pairwise distinct keys. *)
Definition dict : Type := list (string * reading).

Module Dict.

Definition keys (d : dict) : list string := map fst d.

(** [d[k]], [None] standing for [KeyError]. *)
Fixpoint get (k : string) (d : dict) : option reading :=
  match d with
  | [] => None
  | (k', v) :: d' => if String.eqb k k' then Some v else get k d'
  end.

(** [d[k] = v]: an existing key keeps its position, a new key is appended. *)
Fixpoint set (k : string) (v : reading) (d : dict) : dict :=
  match d with
  | [] => [(k, v)]
  | (k', v') :: d' =>
      if String.eqb k k' then (k', v) :: d' else (k', v') :: set k v d'
  end.

(** [dict.fromkeys(d, None)] *)
Definition fromkeys_None (d : dict) : dict := map (fun kv => (fst kv, None)) d.

Definition reading_eqb (a b : reading) : bool :=
  match a, b with
  | None, None => true
  | Some x, Some y => Bool.eqb x y
  | _, _ => false
  end.

(** [d1 == d2]: the same number of items, and every key of [d1] is in [d2]
    with an equal value. *)
Definition eqb (d1 d2 : dict) : bool :=
  (List.length d1 =? List.length d2)
  && forallb (fun kv => match get (fst kv) d2 with
                        | Some v => reading_eqb (snd kv) v
                        | None => false
                        end) d1.

End Dict.

(** References to dict objects are indices in the store. *)
Definition loc : Type := nat.

Module Heap.

Definition t : Type := list dict.

(** The object behind a reference (the empty dict for a dangling one, which
    the plugin never produces). *)
Definition deref (h : t) (l : loc) : dict := nth l h [].

Fixpoint store (h : t) (l : loc) (d : dict) : t :=
  match h, l with
  | [], _ => []
  | _ :: h', O => d :: h'
  | x :: h', S l' => x :: store h' l' d
  end.

(** Allocation of a fresh object. *)
Definition alloc (h : t) (d : dict) : t * loc := (h ++ [d], List.length h).

End Heap.

(** ** The module-level tables *)

(** An action of the set command: the keys of [_OUTPUTS] are [True], [False]
    and the string ["cycle"]. *)
Inductive action : Type :=
| ActBool (b : bool)
| ActStr (s : string).

Definition action_eqb (a b : action) : bool :=
  match a, b with
  | ActBool x, ActBool y => Bool.eqb x y
  | ActStr x, ActStr y => String.eqb x y
  | _, _ => false
  end.

Definition action_repr (a : action) : string :=
  match a with
  | ActBool true => "True"
  | ActBool false => "False"
  | ActStr s => s
  end.

Definition _OUTPUTS : list (action * string) :=
  [ (ActBool true, "1"); (ActBool false, "2"); (ActStr "cycle", "3") ].

Definition _INPUTS : list (string * bool) :=
  [ ("1", true); ("2", false) ].

(** [_OUTPUTS[a]] *)
Definition outputs_getitem (a : action) : exn + string :=
  match find (fun kv => action_eqb a (fst kv)) _OUTPUTS with
  | Some kv => inr (snd kv)
  | None => inl (KeyError (action_repr a))
  end.

(** [_INPUTS[k]] *)
Definition inputs_getitem (k : string) : exn + bool :=
  match find (fun kv => String.eqb k (fst kv)) _INPUTS with
  | Some kv => inr (snd kv)
  | None => inl (KeyError k)
  end.

(** ** The plugin instance and its effects *)

(** The configuration stored by [__init__]. *)
Record Config : Type := mkConfig {
  host : string;
  port : Z;
  oid_outlets : string;
  status_cmd : list string;
  set_cmd : list string;
  state_poll : Q;
  switch_delay : Q;
}.

(** What the plugin does to the outside world, in the order it happens. *)
Inductive event : Type :=
| EvProcess (cmd : list string)          (* aioproc.read_process(cmd=...) *)
| EvLogError (msg : string) (ex : exn)   (* get_logger(0).error(...) *)
| EvLogInfo (msg : string) (d : dict)    (* get_logger(0).info(...) *)
| EvNotify                               (* self._notifier.notify() *)
| EvWait (secs : Q)                      (* self._notifier.wait(secs) *)
| EvSleep (delay : Q).                   (* asyncio.sleep(delay) *)

(** The mutable part of the instance together with the object store. *)
Record Plugin : Type := mkPlugin {
  heap : Heap.t;
  state : loc;            (* self.__state *)
  trace : list event;
  clock : nat;            (* processes started so far *)
}.

(** The state table: the dict object [self.__state] currently refers to. *)
Definition table (p : Plugin) : dict := Heap.deref (heap p) (state p).

(** What one call of [aioproc.read_process] does. *)
Inductive proc_result : Type :=
| ProcRaises (ex : exn)
| ProcReturns (returncode : Z) (text : string).

(** *** A state and exception monad for the method bodies *)

Definition M (A : Type) : Type := Plugin -> (exn + A) * Plugin.

Definition ret {A} (a : A) : M A := fun p => (inr a, p).

Definition raise {A} (e : exn) : M A := fun p => (inl e, p).

Definition bind {A B} (m : M A) (k : A -> M B) : M B :=
  fun p => match m p with
           | (inl e, p') => (inl e, p')
           | (inr a, p') => k a p'
           end.

(** [try: body except Exception as ex: handler ex] *)
Definition try_except {A} (body : M A) (handler : exn -> M A) : M A :=
  fun p => match body p with
           | (inl e, p') => handler e p'
           | (inr a, p') => (inr a, p')
           end.

Definition lift {A} (r : exn + A) : M A :=
  match r with
  | inl e => raise e
  | inr a => ret a
  end.

Declare Scope py_scope.
Delimit Scope py_scope with py.
Notation "x <- m ;; k" := (bind m (fun x => k))
  (at level 61, m at next level, right associativity) : py_scope.
Notation "m ;; k" := (bind m (fun _ => k))
  (at level 61, right associativity) : py_scope.
Local Open Scope py_scope.

Definition emit (e : event) : M unit :=
  fun p => (inr tt, mkPlugin (heap p) (state p) (trace p ++ [e]) (clock p)).

(** [self.__state[pin] = v] *)
Definition state_setitem (pin : string) (v : reading) : M unit :=
  fun p => (inr tt,
            mkPlugin (Heap.store (heap p) (state p) (Dict.set pin v (table p)))
                     (state p) (trace p) (clock p)).

(** [self.__state[pin]] *)
Definition state_getitem (pin : string) : M reading :=
  fun p => match Dict.get pin (table p) with
           | Some v => (inr v, p)
           | None => (inl (KeyError pin), p)
           end.

(** [self.__state = dict.fromkeys(self.__state, None)]: the attribute is
    rebound to a new object, the old object is left as it is. *)
Definition state_rebind_fromkeys : M unit :=
  fun p => let (h, l) := Heap.alloc (heap p) (Dict.fromkeys_None (table p)) in
           (inr tt, mkPlugin h l (trace p) (clock p)).

(** [Plugin.__init__]: an empty state table. *)
Definition init : Plugin := mkPlugin [ [] ] 0 [] 0.

(** [Plugin.register_input] *)
Definition register_input (pin : string) (debounce : Q) : M unit :=
  state_setitem pin None.

(** [Plugin.register_output] *)
Definition register_output (pin : string) (initial : reading) : M unit :=
  state_setitem pin initial.

Section Driver.

(** [str.format] with keyword arguments, and the process transport
    [aioproc.read_process]: what the n-th process started by the plugin
    does, given its command line. *)
Variable str_format : string -> list (string * string) -> exn + string.
Variable read_process : nat -> list string -> proc_result.

Variable self : Config.

(** The list comprehension of both renderers: every part of the command
    template is formatted with the same keyword arguments, left to right;
    the first exception ends it. *)
Fixpoint format_all (parts : list string) (kw : list (string * string))
  : exn + list string :=
  match parts with
  | [] => inr []
  | part :: rest =>
      match str_format part kw with
      | inl e => inl e
      | inr s => match format_all rest kw with
                 | inl e => inl e
                 | inr ss => inr (s :: ss)
                 end
      end
  end.

(** [Plugin.__make_snmpwalk_kwargs]; the [lru_cache] around it does not
    change what a pure function returns. *)
Definition make_snmpwalk_kwargs (pin : string) : exn + list string :=
  format_all (status_cmd self)
    [ ("host", host self); ("oid_outlets", oid_outlets self); ("pin", pin) ].

(** [Plugin.__make_snmpset_kwargs] *)
Definition make_snmpset_kwargs (act : action) (pin : string)
  : exn + list string :=
  match outputs_getitem act with
  | inl e => inl e
  | inr code =>
      format_all (set_cmd self)
        [ ("host", host self); ("oid_outlets", oid_outlets self);
          ("pin", pin); ("action", code) ]
  end.

(** [await aioproc.read_process(cmd=cmd)] *)
Definition call_read_process (cmd : list string) : M (Z * string) :=
  fun p =>
    let p' := mkPlugin (heap p) (state p) (trace p ++ [EvProcess cmd])
                       (S (clock p)) in
    match read_process (clock p) cmd with
    | ProcRaises e => (inl e, p')
    | ProcReturns rc text => (inr (rc, text), p')
    end.

(** [f"{self.__oid_outlets}.4.{pin} = INTEGER: "] *)
Definition response_prefix (pin : string) : string :=
  oid_outlets self ++ ".4." ++ pin ++ " = INTEGER: ".

(** [stripped[-1]] *)
Definition last_item (s : string) : exn + string :=
  match Str.last s with
  | Some c => inr (String c EmptyString)
  | None => inl (IndexError "string index out of range")
  end.

(** The statements after [read_process] in both helpers: check the exit
    status, match the prefix, decode the last character, store it. *)
Definition handle_response (what : string) (pin : string)
    (rc : Z) (text : string) : M unit :=
  if negb (rc =? 0)%Z then
    raise (RuntimeError ("SNMP error: retcode=" ++ Str.of_Z rc))
  else
    let stripped := Str.strip text in
    if Str.startswith stripped (response_prefix pin) then
      c <- lift (last_item stripped) ;;
      v <- lift (inputs_getitem c) ;;
      state_setitem pin (Some v)
    else
      raise (RuntimeError ("Invalid " ++ what ++ " response: " ++ text)).

(** The [except Exception] clause of both helpers. *)
Definition handle_failure (msg : string) (ex : exn) : M unit :=
  emit (EvLogError msg ex) ;;
  state_rebind_fromkeys.

(** [Plugin.__update_power] *)
Definition update_power (pin : string) : M unit :=
  try_except
    (cmd <- lift (make_snmpwalk_kwargs pin) ;;
     r <- call_read_process cmd ;;
     handle_response "smnpwalk" pin (fst r) (snd r))
    (handle_failure "Can't fetch SNMP power status").

(** [Plugin.__set_power] *)
Definition set_power (st : bool) (pin : string) : M unit :=
  try_except
    (cmd <- lift (make_snmpset_kwargs (ActBool st) pin) ;;
     r <- call_read_process cmd ;;
     handle_response "smnpset" pin (fst r) (snd r))
    (handle_failure "Can't set SNMP power status").

(** [Plugin.read]: the table is looked up twice, once for the test and once
    for the returned value. *)
Definition read (pin : string) : M reading :=
  v <- state_getitem pin ;;
  match v with
  | None => raise GpioDriverOfflineError
  | Some _ => state_getitem pin
  end.

(** [Plugin.write] *)
Definition write (pin : string) (st : bool) : M unit :=
  try_except (set_power st pin) (fun _ => raise GpioDriverOfflineError) ;;
  emit (EvSleep (switch_delay self)) ;;
  emit EvNotify.

(** The loop [for pin in self.__state] of [run].  The iterator is bound to
    the object [obj] that [self.__state] refers to when the loop starts and
    walks its items by position; every step first checks that the object
    still has the [size] it had at the start, as the dict iterator does. *)
Fixpoint for_each_key (obj : loc) (size rest : nat)
    (body : string -> M unit) {struct rest} : M unit :=
  fun p =>
    let d := Heap.deref (heap p) obj in
    if negb (List.length d =? size) then
      raise (RuntimeError "dictionary changed size during iteration") p
    else
      match rest with
      | O => ret tt p
      | S rest' =>
          match nth_error (Dict.keys d) (size - rest) with
          | Some pin => (body pin ;; for_each_key obj size rest' body) p
          | None => ret tt p
          end
      end.

(** [self.__state != prev_state]; a dict never equals [None]. *)
Definition state_ne (prev_state : option loc) : M bool :=
  fun p => (inr match prev_state with
                | None => true
                | Some l => negb (Dict.eqb (table p) (Heap.deref (heap p) l))
                end, p).

(** One turn of the [while True] loop of [Plugin.run]; the local variable
    [prev_state] goes in and comes out. *)
Definition run_pass (prev_state : option loc) : M (option loc) :=
  fun p =>
    (for_each_key (state p) (List.length (table p)) (List.length (table p))
                  update_power ;;
     changed <- state_ne prev_state ;;
     prev_state' <- (if changed : bool then
                       (fun q => emit (EvLogInfo "State changed" (table q)) q) ;;
                       emit EvNotify ;;
                       (fun q => ret (Some (state q)) q)
                     else ret prev_state) ;;
     emit (EvWait (state_poll self)) ;;
     ret prev_state') p.

(** The first [n] turns of the loop, from a given [prev_state]. *)
Fixpoint run_loop (n : nat) (prev_state : option loc) : M (option loc) :=
  match n with
  | O => ret prev_state
  | S n' => prev_state' <- run_pass prev_state ;; run_loop n' prev_state'
  end.

(** [Plugin.run], cut after [n] turns: [prev_state] starts as [None]. *)
Definition run (n : nat) : M (option loc) := run_loop n None.

End Driver.

(** ** Registration by the host *)

Inductive registration : Type :=
| RegInput (pin : string) (debounce : Q)
| RegOutput (pin : string) (initial : reading).

Definition reg_pin (r : registration) : string :=
  match r with
  | RegInput pin _ => pin
  | RegOutput pin _ => pin
  end.

Definition register (r : registration) : M unit :=
  match r with
  | RegInput pin debounce => register_input pin debounce
  | RegOutput pin initial => register_output pin initial
  end.

(** The instance after [__init__] and the given registrations, in order. *)
Definition register_all (regs : list registration) : Plugin :=
  fold_left (fun p r => snd (register r p)) regs init.

(** ** The driver as the host sees it after registration

    The host runs [run] as a task and calls [read] and [write]; the local
    [prev_state] of the running task is kept next to the instance. *)

Inductive op : Type :=
| OpPass                               (* one turn of the loop of run *)
| OpRead (pin : string)
| OpWrite (pin : string) (st : bool).

Record Driver : Type := mkDriver {
  plugin : Plugin;
  prev_state : option loc;
}.

Section Host.

Variable str_format : string -> list (string * string) -> exn + string.
Variable read_process : nat -> list string -> proc_result.
Variable self : Config.

(** One operation on the driver.  What [read] and [write] return or raise
    goes to the caller and is dropped here; the instance they leave behind
    is kept.  A turn of [run] updates [prev_state] as well. *)
Definition exec_op (o : op) (d : Driver) : Driver :=
  match o with
  | OpPass =>
      match run_pass str_format read_process self (prev_state d) (plugin d) with
      | (inr prev', p') => mkDriver p' prev'
      | (inl _, p') => mkDriver p' (prev_state d)
      end
  | OpRead pin => mkDriver (snd (read pin (plugin d))) (prev_state d)
  | OpWrite pin st =>
      mkDriver (snd (write str_format read_process self pin st (plugin d)))
               (prev_state d)
  end.

Definition exec_ops (ops : list op) (d : Driver) : Driver :=
  fold_left (fun d o => exec_op o d) ops d.

(** The pin an operation is addressed to, if any. *)
Definition op_pin (o : op) : option string :=
  match o with
  | OpPass => None
  | OpRead pin => Some pin
  | OpWrite pin _ => Some pin
  end.

End Host.

(** ** The response parser as the specification words it

    Strip the text, require the prefix, map the final character through the
    two-entry code table; a non-zero exit status is a failure as well. *)

Definition spec_code_table (c : ascii) : option bool :=
  if Ascii.eqb c "1" then Some true
  else if Ascii.eqb c "2" then Some false
  else None.

Definition spec_decode (base_oid pin : string) (exit_status : Z)
    (text : string) : option bool :=
  if (exit_status =? 0)%Z then
    let s := Str.strip text in
    if String.prefix (base_oid ++ ".4." ++ pin ++ " = INTEGER: ") s then
      match Str.last s with
      | Some c => spec_code_table c
      | None => None
      end
    else None
  else None.

(** ** A concrete formatter and concrete transports, to run the driver

    [simple_format] is [str.format] on templates made of literal text, the
    escapes for the two braces and replacement fields that are a plain
    keyword name. *)

Fixpoint kw_lookup (name : string) (kw : list (string * string))
  : option string :=
  match kw with
  | [] => None
  | (k, v) :: kw' => if String.eqb name k then Some v else kw_lookup name kw'
  end.

Definition prepend (s : string) (r : exn + string) : exn + string :=
  match r with
  | inl e => inl e
  | inr t => inr (s ++ t)%string
  end.

Fixpoint format_from (s : string) (field : option string)
    (kw : list (string * string)) {struct s} : exn + string :=
  match field, s with
  | None, EmptyString => inr EmptyString
  | None, String "{" (String "{" s') => prepend "{" (format_from s' None kw)
  | None, String "}" (String "}" s') => prepend "}" (format_from s' None kw)
  | None, String "{" s' => format_from s' (Some EmptyString) kw
  | None, String "}" _ =>
      inl (ValueError "Single '}' encountered in format string")
  | None, String c s' =>
      prepend (String c EmptyString) (format_from s' None kw)
  | Some f, EmptyString =>
      inl (ValueError "expected '}' before end of string")
  | Some f, String "}" s' =>
      match kw_lookup f kw with
      | Some v => prepend v (format_from s' None kw)
      | None => inl (KeyError f)
      end
  | Some f, String c s' =>
      format_from s' (Some (f ++ String c EmptyString)%string) kw
  end.

Definition simple_format (s : string) (kw : list (string * string))
  : exn + string :=
  format_from s None kw.

(** The defaults of [get_plugin_options], for a PDU at 10.0.0.7. *)
Definition default_config : Config :=
  mkConfig "10.0.0.7" 161 "SNMPv2-SMI::enterprises.3808.1.1.3.3.3.1.1"
    [ "/usr/bin/snmpwalk"; "-v"; "1"; "-c"; "private"; "{host}";
      "{oid_outlets}.4.{pin}" ]
    [ "/usr/bin/snmpset"; "-v"; "1"; "-c"; "private"; "{host}";
      "{oid_outlets}.4.{pin}"; "i"; "{action}" ]
    5 1.

(** A transport given by the list of what the successive processes do;
    past the end of the list the tool exits with status 1. *)
Definition scripted (script : list proc_result)
  : nat -> list string -> proc_result :=
  fun n _ => nth n script (ProcReturns 1 EmptyString).

Definition answer_on (pin : string) : proc_result :=
  ProcReturns 0 ("SNMPv2-SMI::enterprises.3808.1.1.3.3.3.1.1.4." ++ pin
                 ++ " = INTEGER: 1").

Definition answer_off (pin : string) : proc_result :=
  ProcReturns 0 ("SNMPv2-SMI::enterprises.3808.1.1.3.3.3.1.1.4." ++ pin
                 ++ " = INTEGER: 2").

Definition no_response : proc_result :=
  ProcReturns 1 "Timeout: No Response from 10.0.0.7".

(** Two instances to run the driver on: one input pin, and two output pins
    that start switched off. *)
Definition one_input : Plugin := register_all [RegInput "1" 0].

Definition two_outlets : Plugin :=
  register_all [RegOutput "1" (Some false); RegOutput "2" (Some false)].

(** The PDU does not answer the first poll and answers the second. *)
Definition late_answer : nat -> list string -> proc_result :=
  scripted [no_response; answer_on "1"].

(** The PDU does not answer at all. *)
Definition no_answer : nat -> list string -> proc_result := scripted [].

Definition walk_cmd_1 : list string :=
  [ "/usr/bin/snmpwalk"; "-v"; "1"; "-c"; "private"; "10.0.0.7";
    "SNMPv2-SMI::enterprises.3808.1.1.3.3.3.1.1.4.1" ].

(** ** Vocabulary of the statements *)

(** [self.__state] refers to an object of the store. *)
Definition wf (p : Plugin) : Prop := state p < List.length (heap p).

(** Every pin of the table reads unknown ([None]). *)
Definition all_unknown (d : dict) : Prop :=
  forall k, In k (Dict.keys d) -> Dict.get k d = Some None.

Definition is_notify (e : event) : bool :=
  match e with EvNotify => true | _ => false end.

Definition is_wait (e : event) : bool :=
  match e with EvWait _ => true | _ => false end.

Definition count_notify (tr : list event) : nat :=
  List.length (filter is_notify tr).

Definition count_wait (tr : list event) : nat :=
  List.length (filter is_wait tr).

(** The events of one exchange with the PDU: the process and the log
    record of a failure. *)
Definition poll_event (e : event) : Prop :=
  match e with
  | EvProcess _ | EvLogError _ _ => True
  | _ => False
  end.

(** What the transport does for a rendered command: an exception of the
    rendering itself is an exception of the invocation. *)
Definition attempt (read_process : nat -> list string -> proc_result)
    (rendered : exn + list string) (p : Plugin) : proc_result :=
  match rendered with
  | inl e => ProcRaises e
  | inr cmd => read_process (clock p) cmd
  end.

(** The invocation failed, or its output does not decode. *)
Definition failed (self : Config) (pin : string) (r : proc_result) : Prop :=
  match r with
  | ProcRaises _ => True
  | ProcReturns rc text => spec_decode (oid_outlets self) pin rc text = None
  end.

Definition attempt_events (rendered : exn + list string) : list event :=
  match rendered with
  | inl _ => []
  | inr cmd => [EvProcess cmd]
  end.

Definition attempt_clock (rendered : exn + list string) (p : Plugin) : nat :=
  match rendered with
  | inl _ => clock p
  | inr _ => S (clock p)
  end.

(** The instance after a decoded reading [b] was stored for [pin]. *)
Definition stored (p : Plugin) (pin : string) (b : bool)
    (tr : list event) (n : nat) : Plugin :=
  mkPlugin (Heap.store (heap p) (state p) (Dict.set pin (Some b) (table p)))
           (state p) (trace p ++ tr) n.

(** The instance after the table was replaced by an all-unknown one. *)
Definition degraded (p : Plugin) (tr : list event) (n : nat) : Plugin :=
  mkPlugin (heap p ++ [Dict.fromkeys_None (table p)]) (List.length (heap p))
           (trace p ++ tr) n.

(** The effect of one call of a helper on the instance. *)
Inductive exchange_step (pin : string) (p : Plugin) : Plugin -> Prop :=
| step_stored (b : bool) (tr : list event) (n : nat) :
    Forall poll_event tr ->
    exchange_step pin p (stored p pin b tr n)
| step_degraded (tr : list event) (n : nat) :
    Forall poll_event tr ->
    (exists msg ex, In (EvLogError msg ex) tr) ->
    exchange_step pin p (degraded p tr n).

Section Exchange.

Variable read_process : nat -> list string -> proc_result.
Variable self : Config.

(** The shape both helpers share, over the rendered command line. *)
Definition exchange (rendered : exn + list string) (what msg pin : string)
  : M unit :=
  try_except
    (cmd <- lift rendered ;;
     r <- call_read_process read_process cmd ;;
     handle_response self what pin (fst r) (snd r))
    (handle_failure msg).

End Exchange.

(** What [self.__state != prev_state] evaluates to. *)
Definition changed (prev_state : option loc) (p : Plugin) : bool :=
  match prev_state with
  | None => true
  | Some l => negb (Dict.eqb (table p) (Heap.deref (heap p) l))
  end.

Definition with_events (p : Plugin) (tr : list event) : Plugin :=
  mkPlugin (heap p) (state p) (trace p ++ tr) (clock p).

(** The end of a turn of [run], once every pin was polled. *)
Definition pass_end (self : Config) (prev_state : option loc) (p : Plugin)
  : (exn + option loc) * Plugin :=
  if changed prev_state p then
    (inr (Some (state p)),
     with_events p [EvLogInfo "State changed" (table p); EvNotify;
                    EvWait (state_poll self)])
  else
    (inr prev_state, with_events p [EvWait (state_poll self)]).

(** The loop invariant of [for pin in self.__state]: the iterated object
    [obj] and the current table both have the keys [ks]. *)
Definition loop_inv (obj : loc) (ks : list string) (p : Plugin) : Prop :=
  wf p /\ obj < List.length (heap p) /\
  Dict.keys (Heap.deref (heap p) obj) = ks /\
  Dict.keys (table p) = ks.

(** ** Vocabulary of the further properties *)

(** The decoding steps of [handle_response] without the final store: the
    reading the response stands for, or the exception it raises. *)
Definition decode_response (self : Config) (what pin : string) (rc : Z)
    (text : string) : exn + bool :=
  if negb (rc =? 0)%Z then
    inl (RuntimeError ("SNMP error: retcode=" ++ Str.of_Z rc))
  else
    let stripped := Str.strip text in
    if Str.startswith stripped (response_prefix self pin) then
      match last_item stripped with
      | inl e => inl e
      | inr c => inputs_getitem c
      end
    else
      inl (RuntimeError ("Invalid " ++ what ++ " response: " ++ text)).

(** What the body of the [try] of a helper comes to, given what the
    transport did: a reading to store, or the exception for the handler. *)
Definition answer (self : Config) (what pin : string) (r : proc_result)
  : exn + bool :=
  match r with
  | ProcRaises e => inl e
  | ProcReturns rc text => decode_response self what pin rc text
  end.

(** All the polls of one turn of [run], one key after the other. *)
Definition poll_all (str_format : string -> list (string * string) -> exn + string)
    (read_process : nat -> list string -> proc_result) (self : Config)
    (pins : list string) (p : Plugin) : Plugin :=
  fold_left
    (fun q pin => snd (update_power str_format read_process self pin q))
    pins p.

(** The command lines of the processes in a trace. *)
Definition processes (tr : list event) : list (list string) :=
  flat_map (fun e => match e with EvProcess cmd => [cmd] | _ => [] end) tr.

(** The status commands of the given pins, for those that render. *)
Definition walk_commands
    (str_format : string -> list (string * string) -> exn + string)
    (self : Config) (pins : list string) : list (list string) :=
  flat_map (fun pin => match make_snmpwalk_kwargs str_format self pin with
                       | inr cmd => [cmd]
                       | inl _ => []
                       end) pins.

(** The PDU answers every status query of the given pins with a reading. *)
Definition healthy
    (str_format : string -> list (string * string) -> exn + string)
    (read_process : nat -> list string -> proc_result) (self : Config)
    (pins : list string) : Prop :=
  forall n pin, In pin pins ->
  exists cmd b,
    make_snmpwalk_kwargs str_format self pin = inr cmd /\
    answer self "smnpwalk" pin (read_process n cmd) = inr b.

(** No status query gets a reading, whatever the pin and the command. *)
Definition unreachable (read_process : nat -> list string -> proc_result)
    (self : Config) : Prop :=
  forall n cmd pin,
  exists e, answer self "smnpwalk" pin (read_process n cmd) = inl e.

(** The initial reading a registration gives its pin. *)
Definition reg_initial (r : registration) : reading :=
  match r with
  | RegInput _ _ => None
  | RegOutput _ initial => initial
  end.

(** The initial reading of the last registration of [pin], if there is one. *)
Fixpoint last_registration (pin : string) (regs : list registration)
  : option reading :=
  match regs with
  | [] => None
  | r :: rest =>
      match last_registration pin rest with
      | Some v => Some v
      | None => if String.eqb pin (reg_pin r) then Some (reg_initial r)
                else None
      end
  end.

(** The elements of a list in the order of their first occurrences. *)
Fixpoint first_occurrences (l : list string) : list string :=
  match l with
  | [] => []
  | k :: rest =>
      k :: filter (fun x => negb (String.eqb x k)) (first_occurrences rest)
  end.

(** A string of whitespace only. *)
Fixpoint all_space (s : string) : bool :=
  match s with
  | EmptyString => true
  | String c s' => Str.isspace c && all_space s'
  end.

(** The defaults of [Plugin.get_plugin_options], as the validators return
    them: an empty host, port 161, the CyberPower outlet table, the two
    command templates, a poll every 5 s and a switch delay of 1 s. *)
Definition get_plugin_options : Config :=
  mkConfig EmptyString 161 "SNMPv2-SMI::enterprises.3808.1.1.3.3.3.1.1"
    [ "/usr/bin/snmpwalk"; "-v"; "1"; "-c"; "private"; "{host}";
      "{oid_outlets}.4.{pin}" ]
    [ "/usr/bin/snmpset"; "-v"; "1"; "-c"; "private"; "{host}";
      "{oid_outlets}.4.{pin}"; "i"; "{action}" ]
    5 1.

(** A PDU that answers every command with [on] for the object the command
    names, the seventh word of both default command lines. *)
Definition always_on : nat -> list string -> proc_result :=
  fun _ cmd => ProcReturns 0 (nth 6 cmd EmptyString ++ " = INTEGER: 1").

(** A PDU that answers every command with [off]. *)
Definition always_off : nat -> list string -> proc_result :=
  fun _ cmd => ProcReturns 0 (nth 6 cmd EmptyString ++ " = INTEGER: 2").

(** A PDU whose outlet is switched by someone else between the polls: the
    processes with an even number are answered [on], the others [off]. *)
Definition blinking : nat -> list string -> proc_result :=
  fun n cmd => if Nat.even n then always_on n cmd else always_off n cmd.

(** The exception of a tool that exits with status 1. *)
Definition exit_1 : exn := RuntimeError "SNMP error: retcode=1".

(** A response with a line feed after it and blanks before it. *)
Definition padded_response : string :=
  ("  " ++ "SNMPv2-SMI::enterprises.3808.1.1.3.3.3.1.1.4.1 = INTEGER: 1"
   ++ String (ascii_of_nat 10) EmptyString)%string.

(** * Properties *)

(** ** The store *)

Module HeapFacts.

Lemma length_store (h : Heap.t) (l : loc) (d : dict) :
  List.length (Heap.store h l d) = List.length h.
Proof.
  revert l; induction h as [|x h IH]; intros [|l]; simpl; auto.
Qed.

Lemma deref_store_same (h : Heap.t) (l : loc) (d : dict) :
  l < List.length h -> Heap.deref (Heap.store h l d) l = d.
Proof.
  unfold Heap.deref.
  revert l; induction h as [|x h IH]; intros [|l] Hl; simpl in *; try lia; auto.
  apply IH; lia.
Qed.

Lemma deref_store_other (h : Heap.t) (l l' : loc) (d : dict) :
  l <> l' -> Heap.deref (Heap.store h l d) l' = Heap.deref h l'.
Proof.
  unfold Heap.deref.
  revert l l'; induction h as [|x h IH]; intros [|l] [|l'] Hne; simpl;
    try congruence; auto.
Qed.

Lemma deref_dangling (h : Heap.t) (l : loc) :
  List.length h <= l -> Heap.deref h l = [].
Proof. intros Hl; unfold Heap.deref; now apply nth_overflow. Qed.

Lemma deref_alloc_old (h : Heap.t) (l : loc) (d : dict) :
  l < List.length h -> Heap.deref (h ++ [d]) l = Heap.deref h l.
Proof. intros Hl; unfold Heap.deref; now apply app_nth1. Qed.

Lemma deref_alloc_new (h : Heap.t) (d : dict) :
  Heap.deref (h ++ [d]) (List.length h) = d.
Proof.
  unfold Heap.deref; rewrite app_nth2 by lia.
  now rewrite Nat.sub_diag.
Qed.

End HeapFacts.

(** ** Dict objects *)

Module DictFacts.

Lemma length_keys (d : dict) : List.length (Dict.keys d) = List.length d.
Proof. apply length_map. Qed.

Lemma keys_fromkeys (d : dict) : Dict.keys (Dict.fromkeys_None d) = Dict.keys d.
Proof.
  unfold Dict.keys, Dict.fromkeys_None; rewrite map_map; simpl.
  reflexivity.
Qed.

Lemma get_fromkeys (k : string) (d : dict) :
  In k (Dict.keys d) -> Dict.get k (Dict.fromkeys_None d) = Some None.
Proof.
  induction d as [|[k' v] d IH]; simpl; [tauto|].
  intros [E|Hin].
  - subst; now rewrite String.eqb_refl.
  - destruct (String.eqb k k'); auto.
Qed.

Lemma get_in_keys (k : string) (d : dict) :
  In k (Dict.keys d) <-> exists v, Dict.get k d = Some v.
Proof.
  induction d as [|[k' v] d IH]; simpl.
  - split; [tauto | intros [v H]; discriminate].
  - destruct (String.eqb_spec k k') as [E|N].
    + subst; split; eauto.
    + rewrite <- IH; split; [intros [E|H]; congruence || auto | auto].
Qed.

Lemma get_not_in_keys (k : string) (d : dict) :
  ~ In k (Dict.keys d) <-> Dict.get k d = None.
Proof.
  rewrite get_in_keys; destruct (Dict.get k d) as [v|].
  - split; [intros H; exfalso; eauto | discriminate].
  - split; [reflexivity | intros _ [v H]; discriminate].
Qed.

Lemma keys_set_present (k : string) (v : reading) (d : dict) :
  In k (Dict.keys d) -> Dict.keys (Dict.set k v d) = Dict.keys d.
Proof.
  induction d as [|[k' v'] d IH]; simpl; [tauto|].
  intros Hin; destruct (String.eqb_spec k k') as [E|N]; simpl; auto.
  f_equal; apply IH; destruct Hin; congruence.
Qed.

Lemma keys_set_absent (k : string) (v : reading) (d : dict) :
  ~ In k (Dict.keys d) -> Dict.keys (Dict.set k v d) = Dict.keys d ++ [k].
Proof.
  induction d as [|[k' v'] d IH]; simpl; auto.
  intros Hnin; destruct (String.eqb_spec k k') as [E|N]; simpl.
  - exfalso; auto.
  - f_equal; apply IH; tauto.
Qed.

Lemma in_keys_set (k k' : string) (v : reading) (d : dict) :
  In k' (Dict.keys (Dict.set k v d)) <-> k' = k \/ In k' (Dict.keys d).
Proof.
  destruct (in_dec string_dec k (Dict.keys d)) as [Hin|Hnin].
  - rewrite keys_set_present by assumption.
    split; [auto | intros [E|H]; subst; auto].
  - rewrite keys_set_absent by assumption.
    rewrite in_app_iff; simpl; split; intros H; intuition congruence.
Qed.

Lemma nodup_keys_set (k : string) (v : reading) (d : dict) :
  NoDup (Dict.keys d) -> NoDup (Dict.keys (Dict.set k v d)).
Proof.
  intros Hnd; destruct (in_dec string_dec k (Dict.keys d)) as [Hin|Hnin].
  - now rewrite keys_set_present.
  - rewrite keys_set_absent by assumption.
    apply NoDup_app; [assumption | repeat constructor; simpl; tauto |].
    intros x Hx [E|[]]; congruence.
Qed.

Lemma get_set_same (k : string) (v : reading) (d : dict) :
  Dict.get k (Dict.set k v d) = Some v.
Proof.
  induction d as [|[k' v'] d IH]; simpl.
  - now rewrite String.eqb_refl.
  - destruct (String.eqb k k') eqn:E; simpl; rewrite E; auto.
Qed.

Lemma get_set_other (k k' : string) (v : reading) (d : dict) :
  k' <> k -> Dict.get k' (Dict.set k v d) = Dict.get k' d.
Proof.
  intros Hne; induction d as [|[k0 v0] d IH]; simpl.
  - destruct (String.eqb_spec k' k); congruence.
  - destruct (String.eqb_spec k k0) as [E|N]; simpl.
    + subst; destruct (String.eqb_spec k' k0); congruence.
    + destruct (String.eqb k' k0); auto.
Qed.

Lemma get_in_nodup (k : string) (v : reading) (d : dict) :
  NoDup (Dict.keys d) -> In (k, v) d -> Dict.get k d = Some v.
Proof.
  induction d as [|[k' v'] d IH]; simpl; [tauto|].
  intros Hnd [E|Hin]; inversion Hnd as [|? ? Hn Hnd']; subst.
  - injection E as -> ->; now rewrite String.eqb_refl.
  - destruct (String.eqb_spec k k') as [->|N]; [|auto].
    exfalso; apply Hn; change k' with (fst (k', v)); now apply in_map.
Qed.

Lemma reading_eqb_refl (v : reading) : Dict.reading_eqb v v = true.
Proof. destruct v as [[|]|]; reflexivity. Qed.

(** A dict object equals itself. *)
Lemma eqb_refl (d : dict) : NoDup (Dict.keys d) -> Dict.eqb d d = true.
Proof.
  intros Hnd; unfold Dict.eqb; rewrite Nat.eqb_refl; simpl.
  apply forallb_forall; intros [k v] Hin; simpl.
  rewrite (get_in_nodup k v d Hnd Hin); apply reading_eqb_refl.
Qed.

End DictFacts.

(** ** One exchange with the PDU *)

Section ExchangeFacts.

Variable str_format : string -> list (string * string) -> exn + string.
Variable read_process : nat -> list string -> proc_result.
Variable self : Config.

Lemma update_power_exchange (pin : string) :
  update_power str_format read_process self pin
  = exchange read_process self (make_snmpwalk_kwargs str_format self pin)
             "smnpwalk" "Can't fetch SNMP power status" pin.
Proof. reflexivity. Qed.

Lemma set_power_exchange (st : bool) (pin : string) :
  set_power str_format read_process self st pin
  = exchange read_process self
             (make_snmpset_kwargs str_format self (ActBool st) pin)
             "smnpset" "Can't set SNMP power status" pin.
Proof. reflexivity. Qed.

(** The lookup in [_INPUTS] of a one-character string is the code table. *)
Lemma inputs_getitem_char (c : ascii) :
  inputs_getitem (String c EmptyString)
  = match spec_code_table c with
    | Some b => inr b
    | None => inl (KeyError (String c EmptyString))
    end.
Proof.
  unfold inputs_getitem, spec_code_table; simpl.
  destruct (Ascii.eqb c "1"); [reflexivity|].
  destruct (Ascii.eqb c "2"); reflexivity.
Qed.

Lemma handle_response_decoded (what pin : string) (rc : Z) (text : string)
    (b : bool) (p : Plugin) :
  spec_decode (oid_outlets self) pin rc text = Some b ->
  handle_response self what pin rc text p
  = (inr tt, stored p pin b [] (clock p)).
Proof.
  unfold spec_decode, handle_response, Str.startswith, response_prefix.
  destruct (rc =? 0)%Z; [simpl | discriminate].
  destruct (String.prefix _ _); [|discriminate].
  unfold last_item.
  destruct (Str.last (Str.strip text)) as [c|]; [|discriminate].
  intros Hc; unfold bind at 1; simpl.
  unfold bind; rewrite inputs_getitem_char, Hc; simpl.
  unfold state_setitem, stored; now rewrite app_nil_r.
Qed.

Lemma handle_response_rejected (what pin : string) (rc : Z) (text : string)
    (p : Plugin) :
  spec_decode (oid_outlets self) pin rc text = None ->
  exists ex, handle_response self what pin rc text p = (inl ex, p).
Proof.
  unfold spec_decode, handle_response, Str.startswith, response_prefix.
  destruct (rc =? 0)%Z; simpl; [|eexists; reflexivity].
  destruct (String.prefix _ _); [|eexists; reflexivity].
  unfold last_item.
  destruct (Str.last (Str.strip text)) as [c|]; [|eexists; reflexivity].
  intros Hc; unfold bind at 1; simpl.
  unfold bind; rewrite inputs_getitem_char, Hc; simpl.
  eexists; reflexivity.
Qed.

Lemma handle_failure_eq (msg : string) (ex : exn) (p : Plugin) :
  handle_failure msg ex p
  = (inr tt, degraded p [EvLogError msg ex] (clock p)).
Proof. reflexivity. Qed.

(** A decoded answer is stored in place, in the object [self.__state]
    refers to. *)
Lemma exchange_decoded (rendered : exn + list string) (what msg pin : string)
    (rc : Z) (text : string) (b : bool) (p : Plugin) :
  attempt read_process rendered p = ProcReturns rc text ->
  spec_decode (oid_outlets self) pin rc text = Some b ->
  exchange read_process self rendered what msg pin p
  = (inr tt, stored p pin b (attempt_events rendered)
                    (attempt_clock rendered p)).
Proof.
  intros Ha Hd; destruct rendered as [e|cmd]; simpl in Ha; [discriminate|].
  unfold exchange, try_except, bind, call_read_process; simpl.
  rewrite Ha; simpl.
  rewrite (handle_response_decoded _ _ _ _ b) by assumption.
  unfold stored, table; simpl; now rewrite app_nil_r.
Qed.

(** Every failure ends in the handler: one log record, and the table is
    replaced by a new all-unknown one. *)
Lemma exchange_failed (rendered : exn + list string) (what msg pin : string)
    (p : Plugin) :
  failed self pin (attempt read_process rendered p) ->
  exists ex,
    exchange read_process self rendered what msg pin p
    = (inr tt, degraded p (attempt_events rendered ++ [EvLogError msg ex])
                        (attempt_clock rendered p)).
Proof.
  intros Hf; destruct rendered as [e|cmd]; simpl in *.
  - exists e; reflexivity.
  - unfold exchange, try_except, bind, call_read_process; simpl.
    destruct (read_process (clock p) cmd) as [e|rc text]; simpl in *.
    + exists e; rewrite handle_failure_eq; unfold degraded, table; simpl.
      now rewrite <- app_assoc.
    + destruct (handle_response_rejected what pin rc text
                  (mkPlugin (heap p) (state p) (trace p ++ [EvProcess cmd])
                            (S (clock p))) Hf) as [ex Hex].
      rewrite Hex; exists ex.
      rewrite handle_failure_eq; unfold degraded, table; simpl.
      now rewrite <- app_assoc.
Qed.

Lemma failed_dec (pin : string) (r : proc_result) :
  failed self pin r \/
  exists rc text b,
    r = ProcReturns rc text /\
    spec_decode (oid_outlets self) pin rc text = Some b.
Proof.
  destruct r as [e|rc text]; simpl; auto.
  destruct (spec_decode (oid_outlets self) pin rc text) as [b|] eqn:E; eauto 6.
Qed.

Lemma poll_event_attempt (rendered : exn + list string) :
  Forall poll_event (attempt_events rendered).
Proof. destruct rendered; repeat constructor. Qed.

(** A helper never raises, and it either stores or degrades. *)
Lemma exchange_cases (rendered : exn + list string) (what msg pin : string)
    (p : Plugin) :
  exists p',
    exchange read_process self rendered what msg pin p = (inr tt, p') /\
    exchange_step pin p p'.
Proof.
  destruct (failed_dec pin (attempt read_process rendered p))
    as [Hf | (rc & text & b & Ha & Hd)].
  - destruct (exchange_failed rendered what msg pin p Hf) as [ex Hex].
    eexists; split; [exact Hex|].
    constructor.
    + apply Forall_app; split; [apply poll_event_attempt|].
      repeat constructor.
    + exists msg, ex; apply in_or_app; right; now left.
  - eexists; split; [apply (exchange_decoded _ _ _ _ _ _ _ _ Ha Hd)|].
    constructor; apply poll_event_attempt.
Qed.

End ExchangeFacts.

(** ** What an exchange preserves *)

Section StepFacts.

Import HeapFacts DictFacts.

Lemma table_stored (p : Plugin) (pin : string) (b : bool)
    (tr : list event) (n : nat) :
  wf p -> table (stored p pin b tr n) = Dict.set pin (Some b) (table p).
Proof. intros Hwf; unfold table, stored; simpl; now apply deref_store_same. Qed.

Lemma table_degraded (p : Plugin) (tr : list event) (n : nat) :
  table (degraded p tr n) = Dict.fromkeys_None (table p).
Proof. unfold table, degraded; simpl; apply deref_alloc_new. Qed.

Lemma step_wf (pin : string) (p p' : Plugin) :
  exchange_step pin p p' -> wf p -> wf p'.
Proof.
  intros [b tr n _ | tr n _ _] Hwf; unfold wf in *; simpl.
  - now rewrite length_store.
  - rewrite length_app; simpl; lia.
Qed.

Lemma step_keys (pin : string) (p p' : Plugin) :
  exchange_step pin p p' -> wf p -> In pin (Dict.keys (table p)) ->
  Dict.keys (table p') = Dict.keys (table p).
Proof.
  intros [b tr n _ | tr n _ _] Hwf Hin.
  - rewrite table_stored by assumption; now apply keys_set_present.
  - rewrite table_degraded; apply keys_fromkeys.
Qed.

Lemma step_object (pin : string) (p p' : Plugin) (obj : loc) :
  exchange_step pin p p' -> wf p -> In pin (Dict.keys (table p)) ->
  obj < List.length (heap p) ->
  obj < List.length (heap p') /\
  Dict.keys (Heap.deref (heap p') obj) = Dict.keys (Heap.deref (heap p) obj).
Proof.
  intros [b tr n _ | tr n _ _] Hwf Hin Hobj; simpl.
  - rewrite length_store; split; [assumption|].
    destruct (Nat.eq_dec (state p) obj) as [E|N].
    + subst obj; rewrite deref_store_same by assumption.
      now apply keys_set_present.
    + now rewrite deref_store_other.
  - rewrite length_app; simpl; split; [lia|].
    now rewrite deref_alloc_old.
Qed.

Lemma step_trace (pin : string) (p p' : Plugin) :
  exchange_step pin p p' ->
  exists tr, trace p' = trace p ++ tr /\ Forall poll_event tr.
Proof. intros [b tr n H | tr n H _]; exists tr; simpl; auto. Qed.

Lemma step_inv (pin : string) (p p' : Plugin) (obj : loc) (ks : list string) :
  exchange_step pin p p' -> In pin ks -> loop_inv obj ks p -> loop_inv obj ks p'.
Proof.
  intros Hs Hin (Hwf & Hobj & Hko & Hkt).
  rewrite <- Hkt in Hin.
  destruct (step_object pin p p' obj Hs Hwf Hin Hobj) as [Hobj' Hko'].
  repeat split.
  - eapply step_wf; eauto.
  - assumption.
  - congruence.
  - rewrite (step_keys pin p p') by assumption; assumption.
Qed.

Lemma count_notify_app (a b : list event) :
  count_notify (a ++ b) = count_notify a + count_notify b.
Proof. unfold count_notify; now rewrite filter_app, length_app. Qed.

Lemma count_wait_app (a b : list event) :
  count_wait (a ++ b) = count_wait a + count_wait b.
Proof. unfold count_wait; now rewrite filter_app, length_app. Qed.

Lemma count_notify_poll (tr : list event) :
  Forall poll_event tr -> count_notify tr = 0.
Proof.
  induction 1 as [|e tr He _ IH]; [reflexivity|].
  destruct e; simpl in He; try contradiction; exact IH.
Qed.

Lemma count_wait_poll (tr : list event) :
  Forall poll_event tr -> count_wait tr = 0.
Proof.
  induction 1 as [|e tr He _ IH]; [reflexivity|].
  destruct e; simpl in He; try contradiction; exact IH.
Qed.

End StepFacts.

(** ** The loop of [run] *)

Section RunFacts.

Import HeapFacts DictFacts.

Variable str_format : string -> list (string * string) -> exn + string.
Variable read_process : nat -> list string -> proc_result.
Variable self : Config.

Let update := update_power str_format read_process self.

Lemma update_power_cases (pin : string) (p : Plugin) :
  exists p', update pin p = (inr tt, p') /\ exchange_step pin p p'.
Proof. apply exchange_cases. Qed.

(** The [for] loop polls without raising, and keeps the keys of both the
    iterated object and the current table. *)
Lemma for_each_key_spec (obj : loc) (ks : list string) (rest : nat) :
  forall p, loop_inv obj ks p -> rest <= List.length ks ->
  exists p' tr,
    for_each_key obj (List.length ks) rest update p = (inr tt, p') /\
    loop_inv obj ks p' /\ trace p' = trace p ++ tr /\ Forall poll_event tr.
Proof.
  induction rest as [|rest IH]; intros p Hinv Hle.
  - exists p, []; simpl.
    destruct Hinv as (Hwf & Hobj & Hko & Hkt).
    rewrite <- (length_keys (Heap.deref (heap p) obj)), Hko, Nat.eqb_refl.
    simpl; rewrite app_nil_r; repeat split; auto.
  - pose proof Hinv as (Hwf & Hobj & Hko & Hkt).
    simpl.
    rewrite <- (length_keys (Heap.deref (heap p) obj)), Hko, Nat.eqb_refl.
    simpl.
    destruct (nth_error ks (List.length ks - S rest)) as [pin|] eqn:Hn.
    2:{ apply nth_error_None in Hn; lia. }
    apply nth_error_In in Hn.
    destruct (update_power_cases pin p) as (p1 & Hu & Hs).
    unfold bind at 1; rewrite Hu.
    destruct (IH p1 (step_inv pin p p1 obj ks Hs Hn Hinv)) as
      (p' & tr' & Hloop & Hinv' & Htr' & Hev'); [lia|].
    destruct (step_trace pin p p1 Hs) as (tr1 & Htr1 & Hev1).
    exists p', (tr1 ++ tr'); repeat split; try apply Hinv'.
    + exact Hloop.
    + now rewrite Htr', Htr1, app_assoc.
    + apply Forall_app; split; assumption.
Qed.

Lemma loop_inv_start (p : Plugin) :
  wf p -> loop_inv (state p) (Dict.keys (table p)) p.
Proof. intros Hwf; repeat split; auto. Qed.

(** One turn of [run]: the polls, then the comparison and the wait. *)
Lemma run_pass_spec (prev : option loc) (p : Plugin) :
  wf p ->
  exists p1 tr,
    run_pass str_format read_process self prev p = pass_end self prev p1 /\
    wf p1 /\ Dict.keys (table p1) = Dict.keys (table p) /\
    trace p1 = trace p ++ tr /\ Forall poll_event tr.
Proof.
  intros Hwf.
  destruct (for_each_key_spec (state p) (Dict.keys (table p))
              (List.length (Dict.keys (table p))) p (loop_inv_start p Hwf)
              (le_n _)) as (p1 & tr & Hloop & Hinv & Htr & Hev).
  rewrite length_keys in Hloop.
  exists p1, tr; repeat split; try assumption; try apply Hinv.
  unfold run_pass, bind at 1.
  fold update; rewrite Hloop.
  unfold pass_end, bind, state_ne; fold (changed prev p1).
  destruct (changed prev p1); simpl; unfold with_events; simpl.
  - now rewrite <- !app_assoc.
  - reflexivity.
Qed.

Lemma pass_end_returns (prev : option loc) (p1 : Plugin) :
  exists prev' evs,
    pass_end self prev p1
    = (inr prev', with_events p1 (evs ++ [EvWait (state_poll self)])) /\
    count_wait evs = 0.
Proof.
  unfold pass_end; destruct (changed prev p1).
  - exists (Some (state p1)),
      [EvLogInfo "State changed" (table p1); EvNotify]; split; reflexivity.
  - exists prev, []; split; reflexivity.
Qed.

(** A turn of [run] returns, keeps the keys and reaches its wait. *)
Lemma run_pass_returns (prev : option loc) (p : Plugin) :
  wf p ->
  exists prev' p',
    run_pass str_format read_process self prev p = (inr prev', p') /\
    wf p' /\ Dict.keys (table p') = Dict.keys (table p) /\
    count_wait (trace p') = S (count_wait (trace p)).
Proof.
  intros Hwf.
  destruct (run_pass_spec prev p Hwf) as (p1 & tr & Hp & Hwf1 & Hk & Htr & Hev).
  destruct (pass_end_returns prev p1) as (prev' & evs & He & Hc).
  exists prev', (with_events p1 (evs ++ [EvWait (state_poll self)])).
  repeat split; try assumption; [congruence|].
  simpl; rewrite Htr, !count_wait_app, Hc, (count_wait_poll tr Hev).
  unfold count_wait; simpl; lia.
Qed.

Lemma run_loop_returns (n : nat) :
  forall (prev : option loc) (p : Plugin), wf p ->
  exists prev' p',
    run_loop str_format read_process self n prev p = (inr prev', p') /\
    wf p' /\ Dict.keys (table p') = Dict.keys (table p) /\
    count_wait (trace p') = count_wait (trace p) + n.
Proof.
  induction n as [|n IH]; intros prev p Hwf.
  - exists prev, p; repeat split; auto; lia.
  - destruct (run_pass_returns prev p Hwf) as (prev1 & p1 & Hp & Hwf1 & Hk1 & Hc1).
    destruct (IH prev1 p1 Hwf1) as (prev' & p' & Hr & Hwf' & Hk' & Hc').
    exists prev', p'; repeat split; try assumption.
    + simpl; unfold bind; now rewrite Hp.
    + congruence.
    + lia.
Qed.

(** When [prev_state] refers to the very object [self.__state] refers to,
    the comparison finds no difference, whatever was stored in the object
    since [prev_state] was assigned. *)
Lemma changed_alias (p : Plugin) :
  NoDup (Dict.keys (table p)) -> changed (Some (state p)) p = false.
Proof.
  intros Hnd; unfold changed; fold (table p).
  now rewrite eqb_refl.
Qed.

Lemma run_pass_alias_silent (l : loc) (p p' : Plugin) (prev' : option loc) :
  wf p -> NoDup (Dict.keys (table p)) ->
  run_pass str_format read_process self (Some l) p = (inr prev', p') ->
  state p' = l ->
  count_notify (trace p') = count_notify (trace p).
Proof.
  intros Hwf Hnd Hrun Hl.
  destruct (run_pass_spec (Some l) p Hwf)
    as (p1 & tr & Hp & Hwf1 & Hk & Htr & Hev).
  rewrite Hp in Hrun; unfold pass_end in Hrun.
  assert (Hst : state p1 = l).
  { destruct (changed (Some l) p1); injection Hrun as _ <-; exact Hl. }
  rewrite <- Hst, changed_alias in Hrun by (rewrite Hk; exact Hnd).
  injection Hrun as _ <-; simpl.
  rewrite Htr, !count_notify_app, (count_notify_poll tr Hev).
  unfold count_notify; simpl; lia.
Qed.

End RunFacts.

(** ** Registration *)

Section RegistrationFacts.

Import HeapFacts DictFacts.

Lemma with_events_table (p : Plugin) (tr : list event) :
  table (with_events p tr) = table p.
Proof. reflexivity. Qed.

Lemma setitem_wf (pin : string) (v : reading) (p : Plugin) :
  wf p -> wf (snd (state_setitem pin v p)).
Proof. unfold wf; simpl; now rewrite length_store. Qed.

Lemma setitem_table (pin : string) (v : reading) (p : Plugin) :
  wf p -> table (snd (state_setitem pin v p)) = Dict.set pin v (table p).
Proof. intros Hwf; unfold table at 1; simpl; now apply deref_store_same. Qed.

Lemma register_wf (r : registration) (p : Plugin) :
  wf p -> wf (snd (register r p)).
Proof. destruct r; apply setitem_wf. Qed.

Lemma register_table (r : registration) (p : Plugin) :
  wf p -> exists v, table (snd (register r p)) = Dict.set (reg_pin r) v (table p).
Proof. destruct r; intros Hwf; eexists; now apply setitem_table. Qed.

Lemma register_fold (regs : list registration) :
  forall p, wf p -> NoDup (Dict.keys (table p)) ->
  let p' := fold_left (fun q r => snd (register r q)) regs p in
  wf p' /\ NoDup (Dict.keys (table p')) /\
  forall k, In k (Dict.keys (table p')) <->
            In k (Dict.keys (table p)) \/ In k (map reg_pin regs).
Proof.
  induction regs as [|r regs IH]; intros p Hwf Hnd; simpl.
  - repeat split; auto; tauto.
  - destruct (register_table r p Hwf) as [v Hv].
    destruct (IH (snd (register r p))) as (Hwf' & Hnd' & Hk').
    + now apply register_wf.
    + rewrite Hv; now apply nodup_keys_set.
    + repeat split; auto.
      * intros Hin; apply Hk' in Hin; rewrite Hv, in_keys_set in Hin.
        intuition auto.
      * intros Hin; apply Hk'; rewrite Hv, in_keys_set.
        intuition auto.
Qed.

Lemma register_all_spec (regs : list registration) :
  wf (register_all regs) /\
  NoDup (Dict.keys (table (register_all regs))) /\
  forall k, In k (Dict.keys (table (register_all regs))) <->
            In k (map reg_pin regs).
Proof.
  destruct (register_fold regs init) as (Hwf & Hnd & Hk).
  - unfold wf; simpl; lia.
  - constructor.
  - repeat split; auto.
    + intros Hin; apply Hk in Hin; destruct Hin as [[]|]; assumption.
    + intros Hin; apply Hk; now right.
Qed.

End RegistrationFacts.

(** ** [read] and [write] *)

Section AccessFacts.

Variable str_format : string -> list (string * string) -> exn + string.
Variable read_process : nat -> list string -> proc_result.
Variable self : Config.

Lemma read_known (pin : string) (v : reading) (p : Plugin) :
  Dict.get pin (table p) = Some v ->
  read pin p = (match v with
                | None => inl GpioDriverOfflineError
                | Some b => inr (Some b)
                end, p).
Proof.
  intros Hg; unfold read, bind, state_getitem; rewrite Hg.
  destruct v as [b|]; [rewrite Hg|]; reflexivity.
Qed.

Lemma read_pure (pin : string) (p : Plugin) : snd (read pin p) = p.
Proof.
  unfold read, bind, state_getitem.
  destruct (Dict.get pin (table p)) as [[b|]|] eqn:Hg; try reflexivity.
  rewrite Hg; reflexivity.
Qed.

(** [write] never raises: [__set_power] has handled every exception before
    the handler of [write] could see one. *)
Lemma write_spec (pin : string) (st : bool) (p : Plugin) :
  exists p1,
    exchange_step pin p p1 /\
    write str_format read_process self pin st p
    = (inr tt, with_events p1 [EvSleep (switch_delay self); EvNotify]).
Proof.
  destruct (exchange_cases read_process self
              (make_snmpset_kwargs str_format self (ActBool st) pin)
              "smnpset" "Can't set SNMP power status" pin p) as (p1 & He & Hs).
  exists p1; split; [assumption|].
  unfold write, bind, try_except.
  rewrite set_power_exchange, He.
  unfold emit, with_events; simpl; now rewrite <- app_assoc.
Qed.

End AccessFacts.

(** ** The claims of the specification *)

Section Claims.

Import HeapFacts DictFacts.

Variable str_format : string -> list (string * string) -> exn + string.
Variable read_process : nat -> list string -> proc_result.
Variable self : Config.

(** C4: a poll step whose transport invocation fails (exception or non-zero
    exit status) or whose output does not decode leaves every pin of the
    state table, not only the polled one, with the reading unknown; the
    keys of the table are the ones it had. *)
Theorem failed_poll_degrades_every_pin (pin : string) (p : Plugin) :
  failed self pin
    (attempt read_process (make_snmpwalk_kwargs str_format self pin) p) ->
  exists p',
    update_power str_format read_process self pin p = (inr tt, p') /\
    Dict.keys (table p') = Dict.keys (table p) /\
    all_unknown (table p').
Proof.
  intros Hf; rewrite update_power_exchange.
  destruct (exchange_failed read_process self _ "smnpwalk"
              "Can't fetch SNMP power status" pin p Hf) as [ex Hex].
  eexists; split; [exact Hex|].
  rewrite table_degraded; split; [apply keys_fromkeys|].
  intros k Hk; rewrite keys_fromkeys in Hk; now apply get_fromkeys.
Qed.

(** C5: [__update_power] decodes a response as the specified parser does:
    the text is stripped, must start with the prefix
    [<oid_outlets>.4.<pin> = INTEGER: ], and its final character goes
    through the table 1 -> on, 2 -> off, the reading being stored for the
    pin; a non-zero exit status, a prefix mismatch and any other final
    character all end the same way, in the failure handler, and never as a
    reading. *)
Theorem update_power_decodes_as_specified (pin : string) (cmd : list string)
    (rc : Z) (text : string) (p : Plugin) :
  make_snmpwalk_kwargs str_format self pin = inr cmd ->
  read_process (clock p) cmd = ProcReturns rc text ->
  match spec_decode (oid_outlets self) pin rc text with
  | Some b =>
      update_power str_format read_process self pin p
      = (inr tt, stored p pin b [EvProcess cmd] (S (clock p)))
  | None =>
      exists ex,
        update_power str_format read_process self pin p
        = (inr tt,
           degraded p [EvProcess cmd;
                       EvLogError "Can't fetch SNMP power status" ex]
                    (S (clock p)))
  end.
Proof.
  intros Hcmd Hrp; rewrite update_power_exchange, Hcmd.
  destruct (spec_decode (oid_outlets self) pin rc text) as [b|] eqn:Hd.
  - now apply (exchange_decoded read_process self (inr cmd) _ _ _ rc text).
  - apply (exchange_failed read_process self (inr cmd)); simpl.
    now rewrite Hrp.
Qed.

(** C6: for a registered pin, [read] raises the offline error exactly when
    the reading of the pin is unknown, returns the stored boolean
    otherwise, and in both cases leaves the instance as it was: the table
    is not modified and no process is started. *)
Theorem read_offline_iff_unknown (pin : string) (v : reading) (p : Plugin) :
  Dict.get pin (table p) = Some v ->
  (fst (read pin p) = inl GpioDriverOfflineError <-> v = None) /\
  (forall b, v = Some b -> fst (read pin p) = inr (Some b)) /\
  snd (read pin p) = p.
Proof.
  intros Hg; rewrite (read_known pin v p Hg); simpl.
  repeat split.
  - destruct v; [discriminate | reflexivity].
  - intros ->; reflexivity.
  - intros b ->; reflexivity.
Qed.

(** C10: for a pin that is not in the state table, [read] raises [KeyError]
    and not the offline error. *)
Theorem read_unregistered_keyerror (pin : string) (p : Plugin) :
  ~ In pin (Dict.keys (table p)) ->
  read pin p = (inl (KeyError pin), p) /\
  fst (read pin p) <> inl GpioDriverOfflineError.
Proof.
  intros Hn; apply get_not_in_keys in Hn.
  assert (E : read pin p = (inl (KeyError pin), p)).
  { unfold read, bind, state_getitem; now rewrite Hn. }
  rewrite E; split; [reflexivity | discriminate].
Qed.

(** C3: a call of [write] that returns without raising has made the
    exchange with the PDU, then slept for [switch_delay], then notified,
    once, whatever the exchange gave: the sleep and the notification are
    the last two events, and no notification comes before them. *)
Theorem write_sleeps_then_notifies_once (pin : string) (st : bool)
    (p p' : Plugin) :
  write str_format read_process self pin st p = (inr tt, p') ->
  exists tr,
    trace p' = trace p ++ tr ++ [EvSleep (switch_delay self); EvNotify] /\
    count_notify tr = 0.
Proof.
  intros Hw.
  destruct (write_spec str_format read_process self pin st p)
    as (p1 & Hs & Hw1).
  rewrite Hw1 in Hw; injection Hw as <-.
  destruct (step_trace pin p p1 Hs) as (tr & Htr & Hev).
  exists tr; split; [|now apply count_notify_poll].
  simpl; now rewrite Htr, <- app_assoc.
Qed.

(** C9: the first turn of [run] notifies, whatever pins were registered
    (none included) and whatever the polls give: after the polls come the
    log record, the notification and the wait, and [prev_state] is set. *)
Theorem first_pass_always_notifies (regs : list registration) :
  exists p' tr,
    run str_format read_process self 1 (register_all regs)
    = (inr (Some (state p')), p') /\
    trace p' = trace (register_all regs) ++ tr
               ++ [EvLogInfo "State changed" (table p'); EvNotify;
                   EvWait (state_poll self)] /\
    Forall poll_event tr.
Proof.
  destruct (register_all_spec regs) as (Hwf & _ & _).
  destruct (run_pass_spec str_format read_process self None
              (register_all regs) Hwf) as (p1 & tr & Hp & _ & _ & Htr & Hev).
  exists (with_events p1 [EvLogInfo "State changed" (table p1); EvNotify;
                          EvWait (state_poll self)]), tr.
  repeat split; [| |assumption].
  - unfold run; simpl; unfold bind; rewrite Hp; reflexivity.
  - simpl; now rewrite Htr, <- app_assoc.
Qed.

(** C8: the loop of [run] absorbs protocol errors.  From an instance whose
    table exists, any number [n] of turns is run without an exception
    leaving the loop, each turn reaching its wait; and a poll that fails
    returns normally, having logged the error and left every pin
    unknown. *)
Theorem run_absorbs_protocol_errors (n : nat) (prev : option loc)
    (p : Plugin) :
  wf p ->
  (exists prev' p',
     run_loop str_format read_process self n prev p = (inr prev', p') /\
     count_wait (trace p') = count_wait (trace p) + n) /\
  (forall pin q,
     failed self pin
       (attempt read_process (make_snmpwalk_kwargs str_format self pin) q) ->
     exists ex tr q',
       update_power str_format read_process self pin q = (inr tt, q') /\
       trace q' = trace q ++ tr
                  ++ [EvLogError "Can't fetch SNMP power status" ex] /\
       all_unknown (table q')).
Proof.
  intros Hwf; split.
  - destruct (run_loop_returns str_format read_process self n prev p Hwf)
      as (prev' & p' & Hr & _ & _ & Hc).
    exists prev', p'; split; assumption.
  - intros pin q Hf; rewrite update_power_exchange.
    destruct (exchange_failed read_process self _ "smnpwalk"
                "Can't fetch SNMP power status" pin q Hf) as [ex Hex].
    exists ex, (attempt_events (make_snmpwalk_kwargs str_format self pin)).
    eexists; split; [exact Hex|].
    split; [reflexivity|].
    rewrite table_degraded.
    intros k Hk; rewrite keys_fromkeys in Hk; now apply get_fromkeys.
Qed.

Lemma exec_op_inv (o : op) (d : Driver) :
  wf (plugin d) ->
  (forall pin, op_pin o = Some pin -> In pin (Dict.keys (table (plugin d)))) ->
  wf (plugin (exec_op str_format read_process self o d)) /\
  Dict.keys (table (plugin (exec_op str_format read_process self o d)))
  = Dict.keys (table (plugin d)).
Proof.
  intros Hwf Hpin; destruct o as [|pin|pin st]; simpl.
  - destruct (run_pass_returns str_format read_process self (prev_state d)
                (plugin d) Hwf) as (prev' & p' & Hp & Hwf' & Hk & _).
    rewrite Hp; simpl; auto.
  - rewrite read_pure; auto.
  - destruct (write_spec str_format read_process self pin st (plugin d))
      as (p1 & Hs & Hw).
    rewrite Hw; simpl; split.
    + apply (step_wf pin (plugin d) p1 Hs Hwf).
    + rewrite with_events_table.
      apply (step_keys pin (plugin d) p1 Hs Hwf); now apply Hpin.
Qed.

Lemma exec_ops_inv (ops : list op) :
  forall d : Driver,
  wf (plugin d) ->
  Forall (fun o => forall pin, op_pin o = Some pin ->
                   In pin (Dict.keys (table (plugin d)))) ops ->
  Dict.keys (table (plugin (exec_ops str_format read_process self ops d)))
  = Dict.keys (table (plugin d)).
Proof.
  induction ops as [|o ops IH]; intros d Hwf Hall; [reflexivity|].
  inversion Hall as [|? ? Ho Hops]; subst.
  destruct (exec_op_inv o d Hwf Ho) as [Hwf' Hk'].
  simpl; rewrite IH; [assumption | assumption |].
  rewrite Hk'; assumption.
Qed.

(** C7: after registration, through any sequence of turns of [run], reads
    and writes addressed to registered pins, the keys of the state table
    are the keys it had when registration ended: exactly the registered
    pins, each once. *)
Theorem state_table_keys_fixed (regs : list registration) (ops : list op) :
  Forall (fun o => forall pin, op_pin o = Some pin ->
                   In pin (map reg_pin regs)) ops ->
  Dict.keys (table (plugin (exec_ops str_format read_process self ops
                              (mkDriver (register_all regs) None))))
  = Dict.keys (table (register_all regs)) /\
  NoDup (Dict.keys (table (plugin (exec_ops str_format read_process self ops
                                     (mkDriver (register_all regs) None))))) /\
  forall pin,
    In pin (Dict.keys (table (plugin (exec_ops str_format read_process self
                                        ops (mkDriver (register_all regs)
                                                      None)))))
    <-> In pin (map reg_pin regs).
Proof.
  intros Hops.
  destruct (register_all_spec regs) as (Hwf & Hnd & Hk).
  rewrite (exec_ops_inv ops (mkDriver (register_all regs) None) Hwf).
  - auto.
  - eapply Forall_impl; [|exact Hops].
    intros o Ho pin Hp; simpl; apply Hk; now apply Ho.
Qed.

End Claims.

(** ** The claims the code does not meet, on concrete runs *)

(** C1 (not met by the code): one input pin, a PDU that does not answer the
    first poll and answers [on] to the second.  The first turn of [run]
    leaves the pin unknown and notifies; [prev_state] then refers to the
    table object itself, so in the second turn, where the reading of the
    pin goes from unknown to on, the comparison sees no difference and no
    notification is raised. *)
Theorem run_misses_unknown_to_known :
  exists prev1 p1 p2,
    run_pass simple_format late_answer default_config None one_input
    = (inr prev1, p1) /\
    table p1 = [("1", None)] /\
    run_pass simple_format late_answer default_config prev1 p1
    = (inr prev1, p2) /\
    table p2 = [("1", Some true)] /\
    Dict.eqb (table p2) (table p1) = false /\
    trace p2 = trace p1 ++ [EvProcess walk_cmd_1; EvWait 5] /\
    count_notify (trace p2) = count_notify (trace p1).
Proof.
  do 3 eexists.
  split; [vm_compute; reflexivity|].
  split; [reflexivity|].
  split; [vm_compute; reflexivity|].
  repeat split.
Qed.

(** C2 (not met by the code): two output pins, a PDU that does not answer.
    The exchange of [write] fails, every pin becomes unknown, and [write]
    returns normally after its sleep and notification: [__set_power] has
    handled the exception itself, the handler of [write] that raises the
    offline error is never entered. *)
Theorem write_failed_set_returns :
  failed default_config "1"
    (attempt no_answer
       (make_snmpset_kwargs simple_format default_config (ActBool true) "1")
       two_outlets) /\
  exists p',
    write simple_format no_answer default_config "1" true two_outlets
    = (inr tt, p') /\
    table p' = [("1", None); ("2", None)] /\
    count_notify (trace p') = 1.
Proof.
  split; [reflexivity|].
  eexists; split; [vm_compute; reflexivity|].
  split; reflexivity.
Qed.

(** ** The theorems at concrete inputs *)

Lemma failed_poll_degrades_every_pin_witness :
  failed default_config "1"
    (attempt no_answer (make_snmpwalk_kwargs simple_format default_config "1")
       two_outlets) /\
  exists p',
    update_power simple_format no_answer default_config "1" two_outlets
    = (inr tt, p') /\
    Dict.keys (table p') = Dict.keys (table two_outlets) /\
    all_unknown (table p').
Proof.
  split; [reflexivity|].
  apply (failed_poll_degrades_every_pin simple_format no_answer default_config
           "1" two_outlets).
  reflexivity.
Defined.

Lemma update_power_decodes_as_specified_witness :
  make_snmpwalk_kwargs simple_format default_config "1" = inr walk_cmd_1 /\
  scripted [answer_on "1"] (clock two_outlets) walk_cmd_1
  = ProcReturns 0 "SNMPv2-SMI::enterprises.3808.1.1.3.3.3.1.1.4.1 = INTEGER: 1" /\
  match spec_decode (oid_outlets default_config) "1" 0
          "SNMPv2-SMI::enterprises.3808.1.1.3.3.3.1.1.4.1 = INTEGER: 1" with
  | Some b =>
      update_power simple_format (scripted [answer_on "1"]) default_config "1"
        two_outlets
      = (inr tt, stored two_outlets "1" b [EvProcess walk_cmd_1]
                        (S (clock two_outlets)))
  | None =>
      exists ex,
        update_power simple_format (scripted [answer_on "1"]) default_config
          "1" two_outlets
        = (inr tt,
           degraded two_outlets
             [EvProcess walk_cmd_1;
              EvLogError "Can't fetch SNMP power status" ex]
             (S (clock two_outlets)))
  end.
Proof.
  split; [reflexivity|].
  split; [reflexivity|].
  apply (update_power_decodes_as_specified simple_format
           (scripted [answer_on "1"]) default_config "1" walk_cmd_1 0
           "SNMPv2-SMI::enterprises.3808.1.1.3.3.3.1.1.4.1 = INTEGER: 1"
           two_outlets); reflexivity.
Defined.

Lemma read_offline_iff_unknown_witness :
  Dict.get "1" (table one_input) = Some None /\
  (fst (read "1" one_input) = inl GpioDriverOfflineError
   <-> @None bool = None) /\
  (forall b, None = Some b -> fst (read "1" one_input) = inr (Some b)) /\
  snd (read "1" one_input) = one_input.
Proof.
  split; [reflexivity|].
  apply (read_offline_iff_unknown "1" None one_input); reflexivity.
Defined.

Lemma read_unregistered_keyerror_witness :
  ~ In "9" (Dict.keys (table two_outlets)) /\
  read "9" two_outlets = (inl (KeyError "9"), two_outlets) /\
  fst (read "9" two_outlets) <> inl GpioDriverOfflineError.
Proof.
  assert (H : ~ In "9" (Dict.keys (table two_outlets))).
  { simpl; intros [E|[E|[]]]; discriminate E. }
  split; [exact H|].
  apply (read_unregistered_keyerror "9" two_outlets H).
Defined.

Lemma write_sleeps_then_notifies_once_witness :
  write simple_format no_answer default_config "1" true two_outlets
  = (inr tt,
     snd (write simple_format no_answer default_config "1" true two_outlets))
  /\
  exists tr,
    trace (snd (write simple_format no_answer default_config "1" true
                  two_outlets))
    = trace two_outlets ++ tr
      ++ [EvSleep (switch_delay default_config); EvNotify] /\
    count_notify tr = 0.
Proof.
  split; [vm_compute; reflexivity|].
  apply (write_sleeps_then_notifies_once simple_format no_answer
           default_config "1" true two_outlets).
  vm_compute; reflexivity.
Defined.

Lemma run_absorbs_protocol_errors_witness :
  wf two_outlets /\
  (exists prev' p',
     run_loop simple_format late_answer default_config 3 None two_outlets
     = (inr prev', p') /\
     count_wait (trace p') = count_wait (trace two_outlets) + 3) /\
  (forall pin q,
     failed default_config pin
       (attempt late_answer
          (make_snmpwalk_kwargs simple_format default_config pin) q) ->
     exists ex tr q',
       update_power simple_format late_answer default_config pin q
       = (inr tt, q') /\
       trace q' = trace q ++ tr
                  ++ [EvLogError "Can't fetch SNMP power status" ex] /\
       all_unknown (table q')).
Proof.
  assert (H : wf two_outlets) by (unfold wf; simpl; lia).
  split; [exact H|].
  apply (run_absorbs_protocol_errors simple_format late_answer default_config
           3 None two_outlets H).
Defined.

Lemma state_table_keys_fixed_witness :
  Forall (fun o => forall pin, op_pin o = Some pin ->
                   In pin (map reg_pin [RegOutput "1" (Some false);
                                        RegInput "2" 0]))
         [OpPass; OpWrite "1" true; OpRead "2"; OpPass] /\
  Dict.keys (table (plugin (exec_ops simple_format late_answer default_config
                              [OpPass; OpWrite "1" true; OpRead "2"; OpPass]
                              (mkDriver (register_all
                                           [RegOutput "1" (Some false);
                                            RegInput "2" 0]) None))))
  = Dict.keys (table (register_all [RegOutput "1" (Some false);
                                    RegInput "2" 0])) /\
  NoDup (Dict.keys (table (plugin (exec_ops simple_format late_answer
                                     default_config
                                     [OpPass; OpWrite "1" true; OpRead "2";
                                      OpPass]
                                     (mkDriver (register_all
                                                  [RegOutput "1" (Some false);
                                                   RegInput "2" 0]) None))))) /\
  forall pin,
    In pin (Dict.keys (table (plugin (exec_ops simple_format late_answer
                                        default_config
                                        [OpPass; OpWrite "1" true; OpRead "2";
                                         OpPass]
                                        (mkDriver (register_all
                                                     [RegOutput "1" (Some false);
                                                      RegInput "2" 0]) None)))))
    <-> In pin (map reg_pin [RegOutput "1" (Some false); RegInput "2" 0]).
Proof.
  assert (H : Forall (fun o => forall pin, op_pin o = Some pin ->
                      In pin (map reg_pin [RegOutput "1" (Some false);
                                           RegInput "2" 0]))
                     [OpPass; OpWrite "1" true; OpRead "2"; OpPass]).
  { repeat first [apply Forall_nil | apply Forall_cons];
      simpl; intros pin E; try discriminate E; injection E as <-; auto. }
  split; [exact H|].
  apply (state_table_keys_fixed simple_format late_answer default_config
           [RegOutput "1" (Some false); RegInput "2" 0]
           [OpPass; OpWrite "1" true; OpRead "2"; OpPass] H).
Defined.

(** * Further properties of the code *)

(** ** The exchange, exactly *)

Section AnswerFacts.

Import HeapFacts DictFacts.

Variable str_format : string -> list (string * string) -> exn + string.
Variable read_process : nat -> list string -> proc_result.
Variable self : Config.

Lemma handle_response_answer (what pin : string) (rc : Z) (text : string)
    (p : Plugin) :
  handle_response self what pin rc text p
  = match decode_response self what pin rc text with
    | inr b => (inr tt, stored p pin b [] (clock p))
    | inl e => (inl e, p)
    end.
Proof.
  unfold handle_response, decode_response.
  destruct (negb (rc =? 0)%Z); [reflexivity|].
  destruct (Str.startswith _ _); [|reflexivity].
  unfold bind at 1.
  destruct (last_item (Str.strip text)) as [e|c]; simpl; [reflexivity|].
  unfold bind.
  destruct (inputs_getitem c) as [e|b]; simpl; [reflexivity|].
  unfold state_setitem, stored; now rewrite app_nil_r.
Qed.

(** A helper stores the reading the exchange gave, or logs the exception
    that ended the exchange and replaces the table. *)
Lemma exchange_answer (rendered : exn + list string) (what msg pin : string)
    (p : Plugin) :
  exchange read_process self rendered what msg pin p
  = (inr tt,
     match answer self what pin (attempt read_process rendered p) with
     | inr b => stored p pin b (attempt_events rendered)
                       (attempt_clock rendered p)
     | inl e => degraded p (attempt_events rendered ++ [EvLogError msg e])
                         (attempt_clock rendered p)
     end).
Proof.
  destruct rendered as [e|cmd]; [reflexivity|].
  unfold exchange, try_except, bind, call_read_process; simpl.
  destruct (read_process (clock p) cmd) as [e|rc text]; simpl.
  - rewrite handle_failure_eq; unfold degraded, table; simpl.
    now rewrite <- app_assoc.
  - rewrite handle_response_answer.
    destruct (decode_response self what pin rc text) as [e|b].
    + rewrite handle_failure_eq; unfold degraded, table; simpl.
      now rewrite <- app_assoc.
    + unfold stored, table; simpl; now rewrite app_nil_r.
Qed.

Lemma update_power_answer (pin : string) (p : Plugin) :
  update_power str_format read_process self pin p
  = (inr tt,
     match answer self "smnpwalk" pin
             (attempt read_process
                (make_snmpwalk_kwargs str_format self pin) p) with
     | inr b => stored p pin b
                  (attempt_events (make_snmpwalk_kwargs str_format self pin))
                  (attempt_clock (make_snmpwalk_kwargs str_format self pin) p)
     | inl e => degraded p
                  (attempt_events (make_snmpwalk_kwargs str_format self pin)
                   ++ [EvLogError "Can't fetch SNMP power status" e])
                  (attempt_clock (make_snmpwalk_kwargs str_format self pin) p)
     end).
Proof. rewrite update_power_exchange; apply exchange_answer. Qed.

Lemma set_power_answer (st : bool) (pin : string) (p : Plugin) :
  set_power str_format read_process self st pin p
  = (inr tt,
     match answer self "smnpset" pin
             (attempt read_process
                (make_snmpset_kwargs str_format self (ActBool st) pin) p) with
     | inr b => stored p pin b
                  (attempt_events
                     (make_snmpset_kwargs str_format self (ActBool st) pin))
                  (attempt_clock
                     (make_snmpset_kwargs str_format self (ActBool st) pin) p)
     | inl e => degraded p
                  (attempt_events
                     (make_snmpset_kwargs str_format self (ActBool st) pin)
                   ++ [EvLogError "Can't set SNMP power status" e])
                  (attempt_clock
                     (make_snmpset_kwargs str_format self (ActBool st) pin) p)
     end).
Proof. rewrite set_power_exchange; apply exchange_answer. Qed.

Lemma write_answer (pin : string) (st : bool) (p : Plugin) :
  write str_format read_process self pin st p
  = (inr tt,
     with_events (snd (set_power str_format read_process self st pin p))
                 [EvSleep (switch_delay self); EvNotify]).
Proof.
  unfold write, bind, try_except.
  rewrite set_power_answer; simpl.
  unfold emit, with_events; simpl; now rewrite <- app_assoc.
Qed.

End AnswerFacts.

(** ** Polls and writes followed by reads *)

Section ComposeFacts.

Import HeapFacts DictFacts.

Variable str_format : string -> list (string * string) -> exn + string.
Variable read_process : nat -> list string -> proc_result.
Variable self : Config.

Lemma read_all_unknown (k : string) (p : Plugin) :
  In k (Dict.keys (table p)) -> all_unknown (table p) ->
  read k p = (inl GpioDriverOfflineError, p).
Proof. intros Hk Hu; apply (read_known k None p); now apply Hu. Qed.

Lemma all_unknown_degraded (p : Plugin) (tr : list event) (n : nat) :
  all_unknown (table (degraded p tr n)).
Proof.
  rewrite table_degraded; intros k Hk.
  rewrite keys_fromkeys in Hk; now apply get_fromkeys.
Qed.

Lemma keys_degraded (p : Plugin) (tr : list event) (n : nat) :
  Dict.keys (table (degraded p tr n)) = Dict.keys (table p).
Proof. rewrite table_degraded; apply keys_fromkeys. Qed.

(** X5: A poll that gets a reading makes [read] return it; the table stays the
    same object and the other pins keep their readings. *)
Theorem poll_then_read (pin : string) (b : bool) (p : Plugin) :
  wf p ->
  answer self "smnpwalk" pin
    (attempt read_process (make_snmpwalk_kwargs str_format self pin) p)
  = inr b ->
  exists p',
    update_power str_format read_process self pin p = (inr tt, p') /\
    read pin p' = (inr (Some b), p') /\
    state p' = state p /\
    forall k, k <> pin -> Dict.get k (table p') = Dict.get k (table p).
Proof.
  intros Hwf Ha; rewrite update_power_answer, Ha.
  eexists; split; [reflexivity|].
  split; [|split; [reflexivity|]].
  - apply (read_known pin (Some b)).
    rewrite table_stored by assumption; apply get_set_same.
  - intros k Hk; rewrite table_stored by assumption.
    now apply get_set_other.
Qed.

(** X6: A poll that fails logs the exception that ended it, and afterwards
    [read] raises the offline error for every pin of the table. *)
Theorem failed_poll_then_read_offline (pin : string) (e : exn) (p : Plugin) :
  answer self "smnpwalk" pin
    (attempt read_process (make_snmpwalk_kwargs str_format self pin) p)
  = inl e ->
  exists p' tr,
    update_power str_format read_process self pin p = (inr tt, p') /\
    trace p' = trace p ++ tr
               ++ [EvLogError "Can't fetch SNMP power status" e] /\
    forall k, In k (Dict.keys (table p)) ->
              read k p' = (inl GpioDriverOfflineError, p').
Proof.
  intros Ha; rewrite update_power_answer, Ha.
  do 2 eexists; split; [reflexivity|].
  split; [reflexivity|].
  intros k Hk; apply read_all_unknown.
  - now rewrite keys_degraded.
  - apply all_unknown_degraded.
Qed.

(** X7: [write] never raises, whatever the pin, the state and the transport:
    it returns after the exchange, the sleep and the notification. *)
Theorem write_never_raises (pin : string) (st : bool) (p : Plugin) :
  exists p' tr,
    write str_format read_process self pin st p = (inr tt, p') /\
    trace p' = trace p ++ tr ++ [EvSleep (switch_delay self); EvNotify] /\
    Forall poll_event tr.
Proof.
  destruct (write_spec str_format read_process self pin st p)
    as (p1 & Hs & Hw).
  destruct (step_trace pin p p1 Hs) as (tr & Htr & Hev).
  exists (with_events p1 [EvSleep (switch_delay self); EvNotify]), tr.
  repeat split; try assumption.
  simpl; now rewrite Htr, <- app_assoc.
Qed.

(** X8: After a [write] whose exchange gave a reading, [read] returns that
    reading: the one the PDU answered, whatever state was asked for. *)
Theorem write_then_read (pin : string) (st b : bool) (p : Plugin) :
  wf p ->
  answer self "smnpset" pin
    (attempt read_process
       (make_snmpset_kwargs str_format self (ActBool st) pin) p)
  = inr b ->
  exists p',
    write str_format read_process self pin st p = (inr tt, p') /\
    read pin p' = (inr (Some b), p').
Proof.
  intros Hwf Ha; rewrite write_answer, set_power_answer, Ha.
  eexists; split; [reflexivity|].
  apply (read_known pin (Some b)).
  rewrite with_events_table; simpl snd.
  rewrite table_stored by assumption; apply get_set_same.
Qed.

(** X9: After a [write] whose exchange failed, [read] raises the offline error
    for every pin of the table, not only for the written one. *)
Theorem failed_write_then_read_offline (pin : string) (st : bool) (e : exn)
    (p : Plugin) :
  answer self "smnpset" pin
    (attempt read_process
       (make_snmpset_kwargs str_format self (ActBool st) pin) p)
  = inl e ->
  exists p',
    write str_format read_process self pin st p = (inr tt, p') /\
    In (EvLogError "Can't set SNMP power status" e) (trace p') /\
    forall k, In k (Dict.keys (table p)) ->
              read k p' = (inl GpioDriverOfflineError, p').
Proof.
  intros Ha; rewrite write_answer, set_power_answer, Ha.
  eexists; split; [reflexivity|].
  split.
  - simpl; rewrite !in_app_iff; simpl; auto.
  - intros k Hk; apply read_all_unknown.
    + rewrite with_events_table; simpl snd; now rewrite keys_degraded.
    + rewrite with_events_table; simpl snd; apply all_unknown_degraded.
Qed.

(** X10: A [write] to a pin that is not in the table, when its exchange gives a
    reading, adds the pin to the table, after the registered ones. *)
Theorem write_unregistered_adds_pin (pin : string) (st b : bool)
    (p : Plugin) :
  wf p ->
  ~ In pin (Dict.keys (table p)) ->
  answer self "smnpset" pin
    (attempt read_process
       (make_snmpset_kwargs str_format self (ActBool st) pin) p)
  = inr b ->
  exists p',
    write str_format read_process self pin st p = (inr tt, p') /\
    Dict.keys (table p') = Dict.keys (table p) ++ [pin].
Proof.
  intros Hwf Hn Ha; rewrite write_answer, set_power_answer, Ha.
  eexists; split; [reflexivity|].
  rewrite with_events_table; simpl snd.
  rewrite table_stored by assumption; now apply keys_set_absent.
Qed.

End ComposeFacts.

(** ** What registration leaves in the table *)

Section RegisterFacts.

Import HeapFacts DictFacts.

Lemma get_set (k k' : string) (v : reading) (d : dict) :
  Dict.get k' (Dict.set k v d)
  = if String.eqb k' k then Some v else Dict.get k' d.
Proof.
  destruct (String.eqb_spec k' k) as [->|N].
  - apply get_set_same.
  - now apply get_set_other.
Qed.

Lemma register_table_exact (r : registration) (p : Plugin) :
  wf p ->
  table (snd (register r p)) = Dict.set (reg_pin r) (reg_initial r) (table p).
Proof. destruct r; intros Hwf; now apply setitem_table. Qed.

Lemma register_trace (r : registration) (p : Plugin) :
  trace (snd (register r p)) = trace p.
Proof. destruct r; reflexivity. Qed.

Lemma register_fold_trace (regs : list registration) :
  forall p, trace (fold_left (fun q r => snd (register r q)) regs p) = trace p.
Proof.
  induction regs as [|r regs IH]; intros p; simpl; [reflexivity|].
  now rewrite IH, register_trace.
Qed.

Lemma register_all_trace (regs : list registration) :
  trace (register_all regs) = [].
Proof. unfold register_all; now rewrite register_fold_trace. Qed.

Lemma register_fold_get (pin : string) (regs : list registration) :
  forall p, wf p ->
  Dict.get pin (table (fold_left (fun q r => snd (register r q)) regs p))
  = match last_registration pin regs with
    | Some v => Some v
    | None => Dict.get pin (table p)
    end.
Proof.
  induction regs as [|r regs IH]; intros p Hwf; simpl; [reflexivity|].
  rewrite IH by now apply register_wf.
  destruct (last_registration pin regs) as [v|]; [reflexivity|].
  rewrite register_table_exact, get_set by assumption.
  destruct (String.eqb pin (reg_pin r)); reflexivity.
Qed.

Lemma filter_filter_ext (P Q R : string -> bool) (l : list string) :
  (forall x, R x = Q x && P x) ->
  filter P (filter Q l) = filter R l.
Proof.
  intros H; induction l as [|x l IH]; simpl; [reflexivity|].
  rewrite H; destruct (Q x); simpl; [|exact IH].
  destruct (P x); now rewrite IH.
Qed.

Lemma filter_all (P : string -> bool) (l : list string) :
  (forall x, P x = true) -> filter P l = l.
Proof.
  intros H; induction l as [|x l IH]; simpl; [reflexivity|].
  now rewrite H, IH.
Qed.

Lemma existsb_eqb_In (x : string) (ks : list string) :
  existsb (String.eqb x) ks = true <-> In x ks.
Proof.
  rewrite existsb_exists; split.
  - intros (y & Hy & E); apply String.eqb_eq in E; now subst.
  - intros Hx; exists x; split; [assumption | apply String.eqb_refl].
Qed.

Lemma register_fold_keys (regs : list registration) :
  forall p, wf p ->
  Dict.keys (table (fold_left (fun q r => snd (register r q)) regs p))
  = Dict.keys (table p)
    ++ filter (fun x => negb (existsb (String.eqb x) (Dict.keys (table p))))
              (first_occurrences (map reg_pin regs)).
Proof.
  induction regs as [|r regs IH]; intros p Hwf; simpl.
  - now rewrite app_nil_r.
  - rewrite IH by now apply register_wf.
    rewrite register_table_exact by assumption.
    destruct (in_dec string_dec (reg_pin r) (Dict.keys (table p)))
      as [Hin|Hnin].
    + rewrite keys_set_present by assumption.
      apply existsb_eqb_In in Hin; rewrite Hin; simpl.
      f_equal; symmetry; apply filter_filter_ext.
      intros x; destruct (String.eqb_spec x (reg_pin r)) as [->|N]; simpl.
      * now rewrite Hin.
      * reflexivity.
    + rewrite keys_set_absent by assumption.
      assert (E : existsb (String.eqb (reg_pin r)) (Dict.keys (table p))
                  = false).
      { destruct (existsb _ _) eqn:E; [|reflexivity].
        apply existsb_eqb_In in E; contradiction. }
      rewrite E; simpl; rewrite <- app_assoc; simpl.
      do 2 f_equal; symmetry; apply filter_filter_ext.
      intros x; rewrite existsb_app; simpl.
      rewrite orb_false_r, negb_orb; apply andb_comm.
Qed.

(** X2: The table lists the registered pins in the order in which they were
    first registered, each once. *)
Theorem register_all_keys_in_order (regs : list registration) :
  Dict.keys (table (register_all regs))
  = first_occurrences (map reg_pin regs).
Proof.
  unfold register_all; rewrite register_fold_keys by (unfold wf; simpl; lia).
  simpl; now apply filter_all.
Qed.

(** X1: Right after registration [read] answers from the last registration of
    the pin: the offline error for an input and for an output registered
    with [None], the initial value for an output registered with a boolean;
    a pin that was not registered gives [KeyError]. *)
Theorem read_after_registration (pin : string) (regs : list registration) :
  read pin (register_all regs)
  = (match last_registration pin regs with
     | None => inl (KeyError pin)
     | Some None => inl GpioDriverOfflineError
     | Some (Some b) => inr (Some b)
     end, register_all regs).
Proof.
  assert (Hg : Dict.get pin (table (register_all regs))
               = last_registration pin regs).
  { unfold register_all; rewrite register_fold_get by (unfold wf; simpl; lia).
    now destruct (last_registration pin regs). }
  destruct (last_registration pin regs) as [v|].
  - now rewrite (read_known pin v).
  - unfold read, bind, state_getitem; now rewrite Hg.
Qed.

End RegisterFacts.

(** ** A turn of [run] as a sequence of polls *)

Section LoopFacts.

Import HeapFacts DictFacts.

Variable str_format : string -> list (string * string) -> exn + string.
Variable read_process : nat -> list string -> proc_result.
Variable self : Config.

Let update := update_power str_format read_process self.
Let polls := poll_all str_format read_process self.

Lemma update_power_snd (pin : string) (p : Plugin) :
  update pin p = (inr tt, snd (update pin p)).
Proof. unfold update; now rewrite update_power_answer. Qed.

Lemma skipn_nth_error (l : list string) :
  forall i x, nth_error l i = Some x -> skipn i l = x :: skipn (S i) l.
Proof.
  induction l as [|y l IH]; intros [|i] x H; simpl in *; try discriminate.
  - now injection H as ->.
  - now apply IH.
Qed.

(** The [for] loop is the sequence of the polls of the keys that are left,
    in their order; the size check of the iterator never fails. *)
Lemma for_each_key_fold (obj : loc) (ks : list string) (rest : nat) :
  forall p, loop_inv obj ks p -> rest <= List.length ks ->
  for_each_key obj (List.length ks) rest update p
  = (inr tt, polls (skipn (List.length ks - rest) ks) p).
Proof.
  induction rest as [|rest IH]; intros p Hinv Hle;
    pose proof Hinv as (Hwf & Hobj & Hko & Hkt); simpl;
    rewrite <- (length_keys (Heap.deref (heap p) obj)), Hko, Nat.eqb_refl;
    simpl.
  - now rewrite Nat.sub_0_r, skipn_all.
  - destruct (nth_error ks (List.length ks - S rest)) as [pin|] eqn:Hn.
    2:{ apply nth_error_None in Hn; lia. }
    rewrite (skipn_nth_error ks _ pin Hn).
    replace (S (List.length ks - S rest)) with (List.length ks - rest) by lia.
    destruct (update_power_cases str_format read_process self pin p)
      as (p1 & Hu & Hs).
    fold update in Hu.
    unfold bind at 1; rewrite Hu.
    rewrite IH; [| |lia].
    + unfold polls, poll_all; simpl; fold update; now rewrite Hu.
    + apply (step_inv pin p p1 obj ks Hs); [|assumption].
      eapply nth_error_In; eassumption.
Qed.

Lemma run_pass_fold (prev : option loc) (p : Plugin) :
  wf p ->
  run_pass str_format read_process self prev p
  = pass_end self prev
      (poll_all str_format read_process self (Dict.keys (table p)) p).
Proof.
  intros Hwf.
  pose proof (for_each_key_fold (state p) (Dict.keys (table p))
                (List.length (Dict.keys (table p))) p
                (loop_inv_start p Hwf) (le_n _)) as Hloop.
  rewrite Nat.sub_diag in Hloop; simpl skipn in Hloop.
  rewrite length_keys in Hloop.
  unfold run_pass, bind at 1.
  fold update; rewrite Hloop.
  unfold pass_end, bind, state_ne; fold (changed prev (polls (Dict.keys (table p)) p)).
  destruct (changed prev _); simpl; unfold with_events; simpl.
  - now rewrite <- !app_assoc.
  - reflexivity.
Qed.

(** X3: A turn of [run] polls the keys of the table one after the other, each
    once, in the order of the table, without an exception from the dict
    iterator; then it compares, notifies if needed, and waits.  The polls
    leave the table with the keys it had. *)
Theorem run_pass_is_fold (prev : option loc) (p : Plugin) :
  wf p ->
  run_pass str_format read_process self prev p
  = pass_end self prev
      (poll_all str_format read_process self (Dict.keys (table p)) p) /\
  wf (poll_all str_format read_process self (Dict.keys (table p)) p) /\
  Dict.keys (table (poll_all str_format read_process self
                      (Dict.keys (table p)) p))
  = Dict.keys (table p).
Proof.
  intros Hwf; split; [now apply run_pass_fold|].
  destruct (for_each_key_spec str_format read_process self (state p)
              (Dict.keys (table p)) (List.length (Dict.keys (table p))) p
              (loop_inv_start p Hwf) (le_n _))
    as (p' & tr & Hloop & (Hwf' & _ & _ & Hk') & _).
  pose proof (for_each_key_fold (state p) (Dict.keys (table p))
                (List.length (Dict.keys (table p))) p
                (loop_inv_start p Hwf) (le_n _)) as Hfold.
  rewrite Nat.sub_diag in Hfold; simpl skipn in Hfold.
  fold update in Hloop; rewrite Hfold in Hloop.
  injection Hloop as <-; split; assumption.
Qed.

Lemma processes_app (a b : list event) :
  processes (a ++ b) = processes a ++ processes b.
Proof. apply flat_map_app. Qed.

Lemma processes_attempt (pin : string) :
  processes (attempt_events (make_snmpwalk_kwargs str_format self pin))
  = walk_commands str_format self [pin].
Proof.
  unfold walk_commands; simpl.
  destruct (make_snmpwalk_kwargs str_format self pin); reflexivity.
Qed.

Lemma update_power_processes (pin : string) (p : Plugin) :
  processes (trace (snd (update pin p)))
  = processes (trace p) ++ walk_commands str_format self [pin] /\
  clock (snd (update pin p))
  = clock p + List.length (walk_commands str_format self [pin]).
Proof.
  unfold update; rewrite update_power_answer; simpl snd.
  rewrite <- processes_attempt.
  destruct (answer _ _ _ _); simpl;
    rewrite ?processes_app; simpl; rewrite ?app_nil_r;
    (split; [reflexivity|]);
    destruct (make_snmpwalk_kwargs str_format self pin); simpl; lia.
Qed.

Lemma walk_commands_cons (k : string) (ks : list string) :
  walk_commands str_format self (k :: ks)
  = walk_commands str_format self [k] ++ walk_commands str_format self ks.
Proof. unfold walk_commands; simpl; now rewrite app_nil_r. Qed.

Lemma poll_all_processes (ks : list string) :
  forall p,
  processes (trace (polls ks p))
  = processes (trace p) ++ walk_commands str_format self ks /\
  clock (polls ks p)
  = clock p + List.length (walk_commands str_format self ks).
Proof.
  induction ks as [|k ks IH]; intros p.
  - simpl; rewrite app_nil_r; split; [reflexivity | lia].
  - rewrite walk_commands_cons, length_app.
    destruct (IH (snd (update k p))) as [Ht Hc].
    destruct (update_power_processes k p) as [Ht1 Hc1].
    change (polls (k :: ks) p) with (polls ks (snd (update k p))).
    rewrite Ht, Hc, Ht1, Hc1, app_assoc; split; [reflexivity | lia].
Qed.

(** X4: In one turn [run] starts one status process for every key whose
    command renders, in the order of the keys, and no other process. *)
Theorem pass_polls_each_pin_in_order (prev : option loc) (p : Plugin) :
  wf p ->
  exists prev' p',
    run_pass str_format read_process self prev p = (inr prev', p') /\
    processes (trace p')
    = processes (trace p)
      ++ walk_commands str_format self (Dict.keys (table p)) /\
    clock p'
    = clock p
      + List.length (walk_commands str_format self (Dict.keys (table p))).
Proof.
  intros Hwf; rewrite run_pass_fold by assumption.
  destruct (poll_all_processes (Dict.keys (table p)) p) as [Ht Hc].
  fold polls; unfold pass_end.
  destruct (changed prev _); do 2 eexists; (split; [reflexivity|]);
    simpl; rewrite processes_app, Ht; simpl; rewrite app_nil_r;
    split; [reflexivity | exact Hc | reflexivity | exact Hc].
Qed.

End LoopFacts.

(** ** A PDU that always answers, and one that never does *)

Section TransportFacts.

Import HeapFacts DictFacts.

Variable str_format : string -> list (string * string) -> exn + string.
Variable read_process : nat -> list string -> proc_result.
Variable self : Config.

Let update := update_power str_format read_process self.
Let polls := poll_all str_format read_process self.

Lemma healthy_step (pins : list string) (pin : string) (p : Plugin) :
  healthy str_format read_process self pins -> In pin pins ->
  exists b tr n, snd (update pin p) = stored p pin b tr n /\
                 Forall poll_event tr.
Proof.
  intros Hh Hin; destruct (Hh (clock p) pin Hin) as (cmd & b & Hr & Ha).
  unfold update; rewrite update_power_answer, Hr; simpl attempt.
  rewrite Ha; simpl snd.
  do 3 eexists; split; [reflexivity|].
  repeat constructor.
Qed.

(** While every poll gets a reading the table stays the same object. *)
Lemma healthy_polls (pins : list string) (ks : list string) :
  healthy str_format read_process self pins ->
  forall p, wf p ->
  (forall k, In k ks -> In k pins /\ In k (Dict.keys (table p))) ->
  state (polls ks p) = state p /\ wf (polls ks p) /\
  Dict.keys (table (polls ks p)) = Dict.keys (table p) /\
  count_notify (trace (polls ks p)) = count_notify (trace p).
Proof.
  intros Hh; induction ks as [|k ks IH]; intros p Hwf Hks.
  - repeat split; auto.
  - destruct (Hks k (or_introl eq_refl)) as [Hkp Hkt].
    destruct (healthy_step pins k p Hh Hkp) as (b & tr & n & Hs & Hev).
    change (polls (k :: ks) p) with (polls ks (snd (update k p))).
    rewrite Hs.
    assert (Hk1 : Dict.keys (table (stored p k b tr n))
                  = Dict.keys (table p)).
    { rewrite table_stored by assumption; now apply keys_set_present. }
    assert (Hwf1 : wf (stored p k b tr n)).
    { unfold wf; simpl; now rewrite length_store. }
    destruct (IH (stored p k b tr n) Hwf1) as (Hst & Hwf' & Hk' & Hc').
    + intros k' Hk'; rewrite Hk1; apply Hks; now right.
    + repeat split; try assumption.
      * congruence.
      * rewrite Hc'; simpl.
        rewrite count_notify_app, (count_notify_poll tr Hev); lia.
Qed.

Lemma healthy_loop (pins : list string) (n : nat) :
  healthy str_format read_process self pins ->
  forall p, wf p -> NoDup (Dict.keys (table p)) ->
  (forall k, In k (Dict.keys (table p)) -> In k pins) ->
  exists p',
    run_loop str_format read_process self n (Some (state p)) p
    = (inr (Some (state p)), p') /\
    count_notify (trace p') = count_notify (trace p).
Proof.
  intros Hh; induction n as [|n IH]; intros p Hwf Hnd Hin.
  - exists p; split; reflexivity.
  - destruct (healthy_polls pins (Dict.keys (table p)) Hh p Hwf)
      as (Hst & Hwf1 & Hk1 & Hc1); [auto|].
    simpl; unfold bind at 1.
    rewrite run_pass_fold by assumption; fold polls.
    assert (Hch : changed (Some (state p)) (polls (Dict.keys (table p)) p)
                  = false).
    { rewrite <- Hst; apply changed_alias; rewrite Hk1; exact Hnd. }
    unfold pass_end; rewrite Hch.
    destruct (IH (with_events (polls (Dict.keys (table p)) p)
                              [EvWait (state_poll self)]))
      as (p' & Hr & Hc).
    + exact Hwf1.
    + rewrite with_events_table, Hk1; exact Hnd.
    + intros k; rewrite with_events_table, Hk1; apply Hin.
    + simpl state in Hr; rewrite Hst in Hr.
      exists p'; split; [exact Hr|].
      rewrite Hc; simpl; rewrite count_notify_app, Hc1.
      unfold count_notify; simpl; lia.
Qed.

(** X11: While the PDU answers every poll with a reading, [run] notifies once,
    in its first turn, and never again, however many turns follow and
    whatever the readings are. *)
Theorem healthy_run_notifies_once (regs : list registration) (n : nat) :
  healthy str_format read_process self (map reg_pin regs) ->
  exists prev' p',
    run str_format read_process self (S n) (register_all regs)
    = (inr prev', p') /\
    count_notify (trace p') = 1.
Proof.
  intros Hh.
  destruct (register_all_spec regs) as (Hwf & Hnd & Hk).
  destruct (healthy_polls (map reg_pin regs)
              (Dict.keys (table (register_all regs))) Hh
              (register_all regs) Hwf)
    as (Hst & Hwf1 & Hk1 & Hc1).
  { intros k Hin; split; [now apply Hk | assumption]. }
  unfold run; simpl; unfold bind at 1.
  rewrite run_pass_fold by assumption; fold polls.
  unfold pass_end; simpl changed.
  set (p1 := with_events (polls (Dict.keys (table (register_all regs)))
                                (register_all regs))
               [EvLogInfo "State changed"
                  (table (polls (Dict.keys (table (register_all regs)))
                                (register_all regs)));
                EvNotify; EvWait (state_poll self)]).
  destruct (healthy_loop (map reg_pin regs) n Hh p1) as (p' & Hr & Hc).
  - exact Hwf1.
  - unfold p1; rewrite with_events_table, Hk1; exact Hnd.
  - intros k; unfold p1; rewrite with_events_table, Hk1; apply Hk.
  - exists (Some (state p1)), p'; split; [exact Hr|].
    rewrite Hc; unfold p1; simpl.
    rewrite count_notify_app, Hc1, register_all_trace.
    reflexivity.
Qed.

Lemma unreachable_step (pin : string) (p : Plugin) :
  unreachable read_process self ->
  exists tr n, snd (update pin p) = degraded p tr n.
Proof.
  intros Hu; unfold update; rewrite update_power_answer; simpl snd.
  destruct (make_snmpwalk_kwargs str_format self pin) as [e|cmd].
  - do 2 eexists; reflexivity.
  - simpl attempt.
    destruct (Hu (clock p) cmd pin) as [e He]; rewrite He.
    do 2 eexists; reflexivity.
Qed.

Lemma unreachable_polls (ks : list string) :
  unreachable read_process self ->
  forall p, ks <> [] \/ all_unknown (table p) ->
  all_unknown (table (polls ks p)) /\
  Dict.keys (table (polls ks p)) = Dict.keys (table p).
Proof.
  intros Hu; induction ks as [|k ks IH]; intros p Hor.
  - destruct Hor as [Hn|Ha]; [congruence|]; split; [exact Ha | reflexivity].
  - destruct (unreachable_step k p Hu) as (tr & n & Hs).
    change (polls (k :: ks) p) with (polls ks (snd (update k p))).
    rewrite Hs.
    destruct (IH (degraded p tr n)) as [Ha Hk].
    + right; apply all_unknown_degraded.
    + split; [exact Ha|]; now rewrite Hk, keys_degraded.
Qed.

(** X12: After a turn of [run] in which the PDU gave no reading, [read] raises
    the offline error for every pin of the table. *)
Theorem unreachable_pass_all_offline (prev : option loc) (p : Plugin) :
  wf p -> unreachable read_process self ->
  exists prev' p',
    run_pass str_format read_process self prev p = (inr prev', p') /\
    forall k, In k (Dict.keys (table p)) ->
              read k p' = (inl GpioDriverOfflineError, p').
Proof.
  intros Hwf Hu; rewrite run_pass_fold by assumption; fold polls.
  destruct (unreachable_polls (Dict.keys (table p)) Hu p) as [Ha Hk].
  { destruct (Dict.keys (table p)) eqn:E; [right | left; discriminate].
    intros k Hin; rewrite E in Hin; destruct Hin. }
  destruct (pass_end_returns self prev (polls (Dict.keys (table p)) p))
    as (prev' & evs & He & _).
  rewrite He; do 2 eexists; split; [reflexivity|].
  intros k Hin; apply read_all_unknown.
  - rewrite with_events_table, Hk; exact Hin.
  - rewrite with_events_table; exact Ha.
Qed.

End TransportFacts.

(** ** The decoding of a response *)

Lemma str_append_assoc (a b c : string) :
  ((a ++ b) ++ c)%string = (a ++ (b ++ c))%string.
Proof. induction a as [|x a IH]; simpl; [reflexivity | now rewrite IH]. Qed.

Section DecodeFacts.

Variable self : Config.

Lemma prefix_app (p x : string) : String.prefix p (p ++ x) = true.
Proof.
  induction p as [|a p IH]; simpl; [now destruct x|].
  destruct (ascii_dec a a) as [_|N]; [exact IH | congruence].
Qed.

Lemma last_app_char (s : string) (c : ascii) :
  Str.last (s ++ String c EmptyString) = Some c.
Proof.
  induction s as [|a s IH]; simpl; [reflexivity|].
  rewrite IH; destruct (s ++ String c EmptyString)%string eqn:E;
    [|reflexivity].
  destruct s; discriminate E.
Qed.

Lemma lstrip_all_space (s : string) :
  all_space s = true -> Str.lstrip s = EmptyString.
Proof.
  induction s as [|a s IH]; simpl; [reflexivity|].
  destruct (Str.isspace a); simpl; [exact IH | discriminate].
Qed.

Lemma rstrip_all_space (s : string) :
  all_space s = true -> Str.rstrip s = EmptyString.
Proof.
  induction s as [|a s IH]; simpl; [reflexivity|].
  destruct (Str.isspace a); simpl; [|discriminate].
  intros H; now rewrite IH.
Qed.

Lemma lstrip_app (s r : string) :
  Str.lstrip (s ++ r)
  = if all_space s then Str.lstrip r else (Str.lstrip s ++ r)%string.
Proof.
  induction s as [|a s IH]; simpl; [reflexivity|].
  destruct (Str.isspace a); simpl; [exact IH | reflexivity].
Qed.

Lemma rstrip_app_space (s r : string) :
  all_space r = true -> Str.rstrip (s ++ r) = Str.rstrip s.
Proof.
  intros Hr; induction s as [|a s IH]; simpl.
  - now apply rstrip_all_space.
  - now rewrite IH.
Qed.

(** [strip] removes any whitespace around a text. *)
Lemma strip_padding (l text r : string) :
  all_space l = true -> all_space r = true ->
  Str.strip (l ++ text ++ r) = Str.strip text.
Proof.
  intros Hl Hr; unfold Str.strip.
  rewrite lstrip_app, Hl, lstrip_app.
  destruct (all_space text) eqn:Ht.
  - now rewrite (lstrip_all_space r Hr), (lstrip_all_space text Ht).
  - now apply rstrip_app_space.
Qed.

(** X16: Of a response with exit status 0 only the prefix and the last
    character are looked at: whatever stands between them, the reading is
    the entry of [_INPUTS] for the last character. *)
Theorem decode_prefix_and_last (what pin middle text : string) (c : ascii) :
  Str.strip text
  = (response_prefix self pin ++ middle ++ String c EmptyString)%string ->
  decode_response self what pin 0 text
  = inputs_getitem (String c EmptyString).
Proof.
  intros Hs; unfold decode_response, Str.startswith; simpl negb; cbv iota.
  rewrite Hs, prefix_app.
  unfold last_item.
  rewrite <- str_append_assoc, last_app_char; reflexivity.
Qed.

(** X17: Whitespace around the response text does not change the reading. *)
Theorem decode_ignores_padding (what pin l text r : string) (rc : Z)
    (b : bool) :
  all_space l = true -> all_space r = true ->
  (decode_response self what pin rc (l ++ text ++ r) = inr b
   <-> decode_response self what pin rc text = inr b).
Proof.
  intros Hl Hr; unfold decode_response.
  rewrite (strip_padding l text r Hl Hr).
  destruct (negb (rc =? 0)%Z); [reflexivity|].
  destruct (Str.startswith _ _); [reflexivity|].
  split; discriminate.
Qed.

End DecodeFacts.

(** ** The two code tables and the renderers *)

Section RenderFacts.

Variable str_format : string -> list (string * string) -> exn + string.

(** X18: The code [_OUTPUTS] gives for an action reads back through [_INPUTS]
    as [b] exactly when the action is the boolean [b]; the code of
    [cycle] does not read back at all. *)
Theorem outputs_inputs_round_trip (a : action) (code : string) (b : bool) :
  outputs_getitem a = inr code ->
  (inputs_getitem code = inr b <-> a = ActBool b).
Proof.
  unfold outputs_getitem; destruct a as [[|]|s]; simpl.
  - intros [= <-]; destruct b; vm_compute; split; congruence.
  - intros [= <-]; destruct b; vm_compute; split; congruence.
  - destruct (String.eqb s "cycle"); simpl; [|discriminate].
    intros [= <-]; vm_compute; split; discriminate.
Qed.

(** X19: The list comprehension of the renderers: it returns the list of the
    formatted parts when every part formats, and otherwise raises the
    exception of the first part that does not. *)
Theorem format_all_spec (parts : list string) (kw : list (string * string)) :
  (forall cmd,
     format_all str_format parts kw = inr cmd
     <-> Forall2 (fun part s => str_format part kw = inr s) parts cmd) /\
  (forall e,
     format_all str_format parts kw = inl e
     <-> exists ok done bad rest,
           parts = ok ++ bad :: rest /\
           Forall2 (fun part s => str_format part kw = inr s) ok done /\
           str_format bad kw = inl e).
Proof.
  induction parts as [|part parts [IHr IHl]]; simpl; split.
  - intros cmd; split.
    + intros [= <-]; constructor.
    + intros H; inversion H; reflexivity.
  - intros e; split; [discriminate|].
    intros (ok & done & bad & rest & E & _); destruct ok; discriminate E.
  - intros cmd; destruct (str_format part kw) as [e|s] eqn:Hp.
    + split; [discriminate|].
      intros H; inversion H; subst; congruence.
    + destruct (format_all str_format parts kw) as [e|ss] eqn:Hf.
      * split; [discriminate|].
        intros H; inversion H as [|? s' ? ss' _ Hss]; subst.
        apply IHr in Hss; discriminate Hss.
      * split.
        -- intros [= <-]; constructor; [assumption | now apply IHr].
        -- intros H; inversion H as [|? s' ? ss' Hs Hss]; subst.
           apply IHr in Hss; congruence.
  - intros e; destruct (str_format part kw) as [e'|s] eqn:Hp.
    + split.
      * intros [= <-]; exists [], [], part, parts; repeat split; auto.
      * intros (ok & done & bad & rest & E & Hok & Hbad).
        destruct ok as [|o ok]; simpl in E; injection E as E1 E2; subst.
        -- congruence.
        -- inversion Hok; subst; congruence.
    + destruct (format_all str_format parts kw) as [e'|ss] eqn:Hf.
      * split.
        -- intros [= <-].
           destruct (proj1 (IHl e') eq_refl)
             as (ok & done & bad & rest & E & Hok & Hbad).
           exists (part :: ok), (s :: done), bad, rest; subst.
           repeat split; auto.
        -- intros (ok & done & bad & rest & E & Hok & Hbad).
           destruct ok as [|o ok]; simpl in E; injection E as E1 E2; subst.
           ++ congruence.
           ++ inversion Hok; subst.
              assert (Hl : inl e' = inl e :> exn + list string).
              { apply IHl; eauto 8. }
              congruence.
      * split; [discriminate|].
        intros (ok & done & bad & rest & E & Hok & Hbad).
        destruct ok as [|o ok]; simpl in E; injection E as E1 E2; subst.
        -- congruence.
        -- inversion Hok; subst.
           assert (Hl : inr ss = inl e :> exn + list string).
           { apply IHl; eauto 8. }
           discriminate Hl.
Qed.

Lemma append_empty_r (s : string) : (s ++ EmptyString)%string = s.
Proof. induction s as [|a s IH]; simpl; [reflexivity | now rewrite IH]. Qed.

(** X20: With the command templates of [get_plugin_options] the status command
    queries the object [<oid_outlets>.4.<pin>] on the configured host, the
    set command writes the integer 1 for on and 2 for off to the same
    object, and the object queried is the one whose answer the parser
    accepts. *)
Theorem default_commands (cfg : Config) (pin : string) (st : bool) :
  status_cmd cfg = status_cmd get_plugin_options ->
  set_cmd cfg = set_cmd get_plugin_options ->
  make_snmpwalk_kwargs simple_format cfg pin
  = inr [ "/usr/bin/snmpwalk"; "-v"; "1"; "-c"; "private"; host cfg;
          (oid_outlets cfg ++ ".4." ++ pin)%string ] /\
  make_snmpset_kwargs simple_format cfg (ActBool st) pin
  = inr [ "/usr/bin/snmpset"; "-v"; "1"; "-c"; "private"; host cfg;
          (oid_outlets cfg ++ ".4." ++ pin)%string; "i";
          if st then "1" else "2" ] /\
  ((oid_outlets cfg ++ ".4." ++ pin) ++ " = INTEGER: ")%string
  = response_prefix cfg pin.
Proof.
  intros Hs Hc; unfold make_snmpwalk_kwargs, make_snmpset_kwargs.
  rewrite Hs, Hc; repeat split.
  - simpl; now rewrite !append_empty_r.
  - destruct st; simpl; now rewrite !append_empty_r.
  - unfold response_prefix; rewrite !str_append_assoc; reflexivity.
Qed.

End RenderFacts.

(** ** Going offline and coming back *)

Section NotifyFacts.

Import HeapFacts DictFacts.

Variable str_format : string -> list (string * string) -> exn + string.
Variable read_process : nat -> list string -> proc_result.
Variable self : Config.

Let update := update_power str_format read_process self.
Let polls := poll_all str_format read_process self.

Lemma get_In (k : string) (v : reading) (d : dict) :
  Dict.get k d = Some v -> In (k, v) d.
Proof.
  induction d as [|[k' v'] d IH]; simpl; [discriminate|].
  destruct (String.eqb_spec k k') as [->|N].
  - intros [= ->]; now left.
  - intros H; right; now apply IH.
Qed.

(** An all-unknown table differs from one with a known reading. *)
Lemma eqb_unknown_known (d1 d2 : dict) (k : string) (b : bool) :
  all_unknown d1 -> In k (Dict.keys d1) ->
  Dict.get k d2 = Some (Some b) ->
  Dict.eqb d1 d2 = false.
Proof.
  intros Hu Hk Hg; unfold Dict.eqb.
  destruct (forallb _ d1) eqn:E; [|apply andb_false_r].
  rewrite forallb_forall in E.
  specialize (E (k, None) (get_In k None d1 (Hu k Hk))).
  simpl in E; rewrite Hg in E; discriminate E.
Qed.

Lemma polls_count_notify (ks : list string) :
  forall p, count_notify (trace (polls ks p)) = count_notify (trace p).
Proof.
  induction ks as [|k ks IH]; intros p; [reflexivity|].
  change (polls (k :: ks) p) with (polls ks (snd (update k p))).
  rewrite IH.
  destruct (update_power_cases str_format read_process self k p)
    as (p1 & Hu & Hs).
  fold update in Hu; rewrite Hu; simpl snd.
  destruct (step_trace k p p1 Hs) as (tr & Htr & Hev).
  rewrite Htr, count_notify_app, (count_notify_poll tr Hev); lia.
Qed.

(** While no poll gets a reading, the objects of the store are left as
    they are: every failure makes a new table. *)
Lemma unreachable_polls_frame (ks : list string) :
  unreachable read_process self ->
  forall p l, l < List.length (heap p) ->
  Heap.deref (heap (polls ks p)) l = Heap.deref (heap p) l.
Proof.
  intros Hu; induction ks as [|k ks IH]; intros p l Hl; [reflexivity|].
  change (polls (k :: ks) p) with (polls ks (snd (update k p))).
  destruct (unreachable_step str_format read_process self k p Hu)
    as (tr & n & Hs).
  fold update in Hs; rewrite Hs, IH.
  - simpl; now apply deref_alloc_old.
  - simpl; rewrite length_app; simpl; lia.
Qed.

(** X14: When the table holds a known reading and [prev_state] refers to it,
    a turn in which the PDU gives no reading notifies. *)
Theorem going_offline_is_notified (k : string) (b : bool) (p : Plugin) :
  wf p -> unreachable read_process self ->
  Dict.get k (table p) = Some (Some b) ->
  exists p',
    run_pass str_format read_process self (Some (state p)) p
    = (inr (Some (state p')), p') /\
    all_unknown (table p') /\
    count_notify (trace p') = S (count_notify (trace p)).
Proof.
  intros Hwf Hu Hg.
  assert (Hk : In k (Dict.keys (table p))) by (apply get_in_keys; eauto).
  rewrite run_pass_fold by assumption; fold polls.
  destruct (unreachable_polls str_format read_process self
              (Dict.keys (table p)) Hu p) as [Ha Hks].
  { left; intros E; rewrite E in Hk; destruct Hk. }
  fold polls in Ha, Hks.
  assert (Hch : changed (Some (state p)) (polls (Dict.keys (table p)) p)
                = true).
  { unfold changed.
    rewrite (unreachable_polls_frame _ Hu p (state p) Hwf).
    fold (table p).
    rewrite (eqb_unknown_known _ (table p) k b Ha); [reflexivity| |exact Hg].
    now rewrite Hks. }
  unfold pass_end; rewrite Hch.
  exists (with_events (polls (Dict.keys (table p)) p)
            [EvLogInfo "State changed" (table (polls (Dict.keys (table p)) p));
             EvNotify; EvWait (state_poll self)]).
  split; [reflexivity|].
  split; [exact Ha|].
  simpl; rewrite count_notify_app, polls_count_notify.
  unfold count_notify; simpl; lia.
Qed.

(** X15: When [prev_state] refers to the table, as it does after every
    notification of [run], and the PDU answers every poll with a reading,
    no number of turns notifies: the readings that come back, or change,
    are stored in the object [prev_state] refers to. *)
Theorem recovery_is_silent (n : nat) (p : Plugin) :
  wf p -> NoDup (Dict.keys (table p)) ->
  healthy str_format read_process self (Dict.keys (table p)) ->
  exists p',
    run_loop str_format read_process self n (Some (state p)) p
    = (inr (Some (state p)), p') /\
    count_notify (trace p') = count_notify (trace p).
Proof.
  intros Hwf Hnd Hh.
  apply (healthy_loop str_format read_process self (Dict.keys (table p)) n Hh
           p Hwf Hnd).
  auto.
Qed.

Lemma healthy_polls_known (pins : list string) (ks : list string) :
  healthy str_format read_process self pins ->
  forall p, wf p ->
  (forall k, In k ks -> In k pins /\ In k (Dict.keys (table p))) ->
  forall k,
    In k ks \/ (exists b, Dict.get k (table p) = Some (Some b)) ->
    exists b, Dict.get k (table (polls ks p)) = Some (Some b).
Proof.
  intros Hh; induction ks as [|k0 ks IH]; intros p Hwf Hks k Hor.
  - destruct Hor as [[]|H]; exact H.
  - destruct (Hks k0 (or_introl eq_refl)) as [Hkp Hkt].
    destruct (healthy_step str_format read_process self pins k0 p Hh Hkp)
      as (b0 & tr & n & Hs & _).
    change (polls (k0 :: ks) p) with (polls ks (snd (update k0 p))).
    fold update in Hs; rewrite Hs.
    assert (Ht1 : table (stored p k0 b0 tr n)
                  = Dict.set k0 (Some b0) (table p))
      by now apply table_stored.
    apply IH.
    + unfold wf; simpl; now rewrite length_store.
    + intros k' Hk'; rewrite Ht1, keys_set_present by assumption.
      apply Hks; now right.
    + rewrite Ht1, get_set.
      destruct (String.eqb_spec k k0) as [->|N]; [right; eauto|].
      destruct Hor as [[E|Hin]|Hknown]; [congruence | now left | now right].
Qed.

(** X13: After a turn of [run] in which the PDU answered every poll with a
    reading, [read] returns a boolean for every pin of the table. *)
Theorem healthy_pass_all_known (prev : option loc) (p : Plugin) :
  wf p ->
  healthy str_format read_process self (Dict.keys (table p)) ->
  exists prev' p',
    run_pass str_format read_process self prev p = (inr prev', p') /\
    forall k, In k (Dict.keys (table p)) ->
              exists b, read k p' = (inr (Some b), p').
Proof.
  intros Hwf Hh; rewrite run_pass_fold by assumption; fold polls.
  destruct (pass_end_returns self prev (polls (Dict.keys (table p)) p))
    as (prev' & evs & He & _).
  rewrite He; do 2 eexists; split; [reflexivity|].
  intros k Hk.
  destruct (healthy_polls_known (Dict.keys (table p)) (Dict.keys (table p))
              Hh p Hwf (fun k H => conj H H) k (or_introl Hk)) as [b Hb].
  exists b; apply (read_known k (Some b)).
  rewrite with_events_table; exact Hb.
Qed.

End NotifyFacts.

(** ** The further theorems at concrete inputs *)

Lemma wf_two_outlets : wf two_outlets.
Proof. unfold wf; simpl; lia. Defined.

Lemma poll_then_read_witness :
  wf two_outlets /\
  answer default_config "smnpwalk" "1"
    (attempt always_on (make_snmpwalk_kwargs simple_format default_config "1")
       two_outlets)
  = inr true /\
  exists p',
    update_power simple_format always_on default_config "1" two_outlets
    = (inr tt, p') /\
    read "1" p' = (inr (Some true), p') /\
    state p' = state two_outlets /\
    forall k, k <> "1" ->
              Dict.get k (table p') = Dict.get k (table two_outlets).
Proof.
  split; [exact wf_two_outlets|].
  split; [reflexivity|].
  apply (poll_then_read simple_format always_on default_config "1" true
           two_outlets wf_two_outlets).
  reflexivity.
Defined.

Lemma failed_poll_then_read_offline_witness :
  answer default_config "smnpwalk" "1"
    (attempt no_answer (make_snmpwalk_kwargs simple_format default_config "1")
       two_outlets)
  = inl exit_1 /\
  exists p' tr,
    update_power simple_format no_answer default_config "1" two_outlets
    = (inr tt, p') /\
    trace p' = trace two_outlets ++ tr
               ++ [EvLogError "Can't fetch SNMP power status" exit_1] /\
    forall k, In k (Dict.keys (table two_outlets)) ->
              read k p' = (inl GpioDriverOfflineError, p').
Proof.
  split; [reflexivity|].
  apply (failed_poll_then_read_offline simple_format no_answer default_config
           "1" exit_1 two_outlets).
  reflexivity.
Defined.

Lemma write_then_read_witness :
  wf two_outlets /\
  answer default_config "smnpset" "1"
    (attempt always_off
       (make_snmpset_kwargs simple_format default_config (ActBool true) "1")
       two_outlets)
  = inr false /\
  exists p',
    write simple_format always_off default_config "1" true two_outlets
    = (inr tt, p') /\
    read "1" p' = (inr (Some false), p').
Proof.
  split; [exact wf_two_outlets|].
  split; [reflexivity|].
  apply (write_then_read simple_format always_off default_config "1" true
           false two_outlets wf_two_outlets).
  reflexivity.
Defined.

Lemma failed_write_then_read_offline_witness :
  answer default_config "smnpset" "1"
    (attempt no_answer
       (make_snmpset_kwargs simple_format default_config (ActBool true) "1")
       two_outlets)
  = inl exit_1 /\
  exists p',
    write simple_format no_answer default_config "1" true two_outlets
    = (inr tt, p') /\
    In (EvLogError "Can't set SNMP power status" exit_1) (trace p') /\
    forall k, In k (Dict.keys (table two_outlets)) ->
              read k p' = (inl GpioDriverOfflineError, p').
Proof.
  split; [reflexivity|].
  apply (failed_write_then_read_offline simple_format no_answer
           default_config "1" true exit_1 two_outlets).
  reflexivity.
Defined.

Lemma write_unregistered_adds_pin_witness :
  wf two_outlets /\
  ~ In "7" (Dict.keys (table two_outlets)) /\
  answer default_config "smnpset" "7"
    (attempt always_on
       (make_snmpset_kwargs simple_format default_config (ActBool true) "7")
       two_outlets)
  = inr true /\
  exists p',
    write simple_format always_on default_config "7" true two_outlets
    = (inr tt, p') /\
    Dict.keys (table p') = Dict.keys (table two_outlets) ++ ["7"].
Proof.
  assert (H : ~ In "7" (Dict.keys (table two_outlets))).
  { simpl; intros [E|[E|[]]]; discriminate E. }
  split; [exact wf_two_outlets|].
  split; [exact H|].
  split; [reflexivity|].
  apply (write_unregistered_adds_pin simple_format always_on default_config
           "7" true true two_outlets wf_two_outlets H).
  reflexivity.
Defined.

Lemma run_pass_is_fold_witness :
  wf two_outlets /\
  run_pass simple_format late_answer default_config None two_outlets
  = pass_end default_config None
      (poll_all simple_format late_answer default_config
         (Dict.keys (table two_outlets)) two_outlets) /\
  wf (poll_all simple_format late_answer default_config
        (Dict.keys (table two_outlets)) two_outlets) /\
  Dict.keys (table (poll_all simple_format late_answer default_config
                      (Dict.keys (table two_outlets)) two_outlets))
  = Dict.keys (table two_outlets).
Proof.
  split; [exact wf_two_outlets|].
  apply (run_pass_is_fold simple_format late_answer default_config None
           two_outlets wf_two_outlets).
Defined.

Lemma pass_polls_each_pin_in_order_witness :
  wf two_outlets /\
  exists prev' p',
    run_pass simple_format late_answer default_config None two_outlets
    = (inr prev', p') /\
    processes (trace p')
    = processes (trace two_outlets)
      ++ walk_commands simple_format default_config
           (Dict.keys (table two_outlets)) /\
    clock p'
    = clock two_outlets
      + List.length (walk_commands simple_format default_config
                       (Dict.keys (table two_outlets))).
Proof.
  split; [exact wf_two_outlets|].
  apply (pass_polls_each_pin_in_order simple_format late_answer
           default_config None two_outlets wf_two_outlets).
Defined.

Lemma healthy_blinking :
  healthy simple_format blinking default_config (map reg_pin [RegInput "1" 0]).
Proof.
  intros n pin [<-|[]]; unfold blinking.
  destruct (Nat.even n); do 2 eexists; split; reflexivity.
Defined.

Lemma healthy_run_notifies_once_witness :
  healthy simple_format blinking default_config
    (map reg_pin [RegInput "1" 0]) /\
  exists prev' p',
    run simple_format blinking default_config 3
      (register_all [RegInput "1" 0])
    = (inr prev', p') /\
    count_notify (trace p') = 1.
Proof.
  split; [exact healthy_blinking|].
  apply (healthy_run_notifies_once simple_format blinking default_config
           [RegInput "1" 0] 2 healthy_blinking).
Defined.

Lemma unreachable_no_answer : unreachable no_answer default_config.
Proof.
  intros n cmd pin; exists exit_1.
  unfold no_answer, scripted; destruct n; reflexivity.
Defined.

Lemma unreachable_pass_all_offline_witness :
  wf two_outlets /\
  unreachable no_answer default_config /\
  exists prev' p',
    run_pass simple_format no_answer default_config None two_outlets
    = (inr prev', p') /\
    forall k, In k (Dict.keys (table two_outlets)) ->
              read k p' = (inl GpioDriverOfflineError, p').
Proof.
  split; [exact wf_two_outlets|].
  split; [exact unreachable_no_answer|].
  apply (unreachable_pass_all_offline simple_format no_answer default_config
           None two_outlets wf_two_outlets unreachable_no_answer).
Defined.

Lemma decode_prefix_and_last_witness :
  Str.strip "SNMPv2-SMI::enterprises.3808.1.1.3.3.3.1.1.4.1 = INTEGER: 12"
  = (response_prefix default_config "1" ++ "1" ++ String "2" EmptyString)%string
  /\
  decode_response default_config "smnpwalk" "1" 0
    "SNMPv2-SMI::enterprises.3808.1.1.3.3.3.1.1.4.1 = INTEGER: 12"
  = inputs_getitem (String "2" EmptyString).
Proof.
  split; [reflexivity|].
  apply (decode_prefix_and_last default_config "smnpwalk" "1" "1"
           "SNMPv2-SMI::enterprises.3808.1.1.3.3.3.1.1.4.1 = INTEGER: 12"
           "2").
  reflexivity.
Defined.

Lemma decode_ignores_padding_witness :
  all_space "  " = true /\
  all_space (String (ascii_of_nat 10) EmptyString) = true /\
  (decode_response default_config "smnpwalk" "1" 0
     ("  " ++ "SNMPv2-SMI::enterprises.3808.1.1.3.3.3.1.1.4.1 = INTEGER: 1"
      ++ String (ascii_of_nat 10) EmptyString) = inr true
   <-> decode_response default_config "smnpwalk" "1" 0
         "SNMPv2-SMI::enterprises.3808.1.1.3.3.3.1.1.4.1 = INTEGER: 1"
       = inr true).
Proof.
  split; [reflexivity|].
  split; [reflexivity|].
  apply (decode_ignores_padding default_config "smnpwalk" "1" "  "
           "SNMPv2-SMI::enterprises.3808.1.1.3.3.3.1.1.4.1 = INTEGER: 1"
           (String (ascii_of_nat 10) EmptyString) 0 true);
    reflexivity.
Defined.

Lemma outputs_inputs_round_trip_witness :
  outputs_getitem (ActBool false) = inr "2" /\
  (inputs_getitem "2" = inr false <-> ActBool false = ActBool false).
Proof.
  split; [reflexivity|].
  apply (outputs_inputs_round_trip (ActBool false) "2" false).
  reflexivity.
Defined.

Lemma default_commands_witness :
  status_cmd default_config = status_cmd get_plugin_options /\
  set_cmd default_config = set_cmd get_plugin_options /\
  make_snmpwalk_kwargs simple_format default_config "3"
  = inr [ "/usr/bin/snmpwalk"; "-v"; "1"; "-c"; "private";
          host default_config;
          (oid_outlets default_config ++ ".4." ++ "3")%string ] /\
  make_snmpset_kwargs simple_format default_config (ActBool true) "3"
  = inr [ "/usr/bin/snmpset"; "-v"; "1"; "-c"; "private";
          host default_config;
          (oid_outlets default_config ++ ".4." ++ "3")%string; "i";
          if true then "1" else "2" ] /\
  ((oid_outlets default_config ++ ".4." ++ "3") ++ " = INTEGER: ")%string
  = response_prefix default_config "3".
Proof.
  split; [reflexivity|].
  split; [reflexivity|].
  apply (default_commands default_config "3" true); reflexivity.
Defined.

Lemma wf_one_input : wf one_input.
Proof. unfold wf; simpl; lia. Defined.

Lemma nodup_one_input : NoDup (Dict.keys (table one_input)).
Proof. repeat constructor; simpl; tauto. Defined.

Lemma going_offline_is_notified_witness :
  wf two_outlets /\
  unreachable no_answer default_config /\
  Dict.get "1" (table two_outlets) = Some (Some false) /\
  exists p',
    run_pass simple_format no_answer default_config
      (Some (state two_outlets)) two_outlets
    = (inr (Some (state p')), p') /\
    all_unknown (table p') /\
    count_notify (trace p') = S (count_notify (trace two_outlets)).
Proof.
  split; [exact wf_two_outlets|].
  split; [exact unreachable_no_answer|].
  split; [reflexivity|].
  apply (going_offline_is_notified simple_format no_answer default_config
           "1" false two_outlets wf_two_outlets unreachable_no_answer).
  reflexivity.
Defined.

Lemma recovery_is_silent_witness :
  wf one_input /\
  NoDup (Dict.keys (table one_input)) /\
  healthy simple_format blinking default_config
    (Dict.keys (table one_input)) /\
  exists p',
    run_loop simple_format blinking default_config 3
      (Some (state one_input)) one_input
    = (inr (Some (state one_input)), p') /\
    count_notify (trace p') = count_notify (trace one_input).
Proof.
  split; [exact wf_one_input|].
  split; [exact nodup_one_input|].
  split; [exact healthy_blinking|].
  apply (recovery_is_silent simple_format blinking default_config 3
           one_input wf_one_input nodup_one_input healthy_blinking).
Defined.

Lemma healthy_pass_all_known_witness :
  wf one_input /\
  healthy simple_format blinking default_config
    (Dict.keys (table one_input)) /\
  exists prev' p',
    run_pass simple_format blinking default_config None one_input
    = (inr prev', p') /\
    forall k, In k (Dict.keys (table one_input)) ->
              exists b, read k p' = (inr (Some b), p').
Proof.
  split; [exact wf_one_input|].
  split; [exact healthy_blinking|].
  apply (healthy_pass_all_known simple_format blinking default_config None
           one_input wf_one_input healthy_blinking).
Defined.
